(** * nekoyume/models.py: blocks, moves, dice and avatars

    A shallow embedding of the chain and game rules of [nekoyume.models]:
    the hash-random stream and the dice ([Move.get_randoms], [Move.roll]),
    the move handlers ([HackAndSlash], [LevelUp], [Send], [Combine]),
    block validity and minting ([Block.valid], [User.create_block]) and the
    branch-point probe of [Block.sync].

    Python objects that the handlers mutate in place are threaded through
    explicitly: a handler takes the avatar and returns the avatar it hands
    back; the list of randoms that [roll] pops from is returned next to the
    rolled value.  A raised exception is the [Raise] outcome. *)

From Stdlib Require Import ZArith Lia List String Ascii.
From Stdlib Require Import DecimalString DecimalPos DecimalN.
From stdpp Require Import gmap strings list sorting.
From Equations Require Import Equations.

Local Open Scope Z_scope.
#[local] Arguments String.append !_ _ / : simpl nomatch.

(** ** Exceptions and outcomes *)

Inductive exn : Set :=
  | IndexError | KeyError | ValueError | TypeError | AttributeError
  | ZeroDivisionError | NotImplementedError
  | OutOfRandomError | InvalidMoveError | InvalidBlockError.

Inductive res (A : Type) : Type :=
  | Ok (a : A)
  | Raise (e : exn).
Arguments Ok {A} a.
Arguments Raise {A} e.

#[global] Instance res_ret : MRet res := fun _ a => Ok a.
#[global] Instance res_bind : MBind res := fun _ _ f m =>
  match m with Ok a => f a | Raise e => Raise e end.
#[global] Instance res_fmap : FMap res := fun _ _ f m =>
  match m with Ok a => Ok (f a) | Raise e => Raise e end.

(** [d[k]] on a dict: [KeyError] when the key is missing. *)
Definition getitem {V} (d : gmap string V) (k : string) : res V :=
  match d !! k with Some v => Ok v | None => Raise KeyError end.

(** ** The pieces of Python's [str], [int] and [list] that the code uses *)

Definition ord (c : ascii) : Z := Z.of_N (N_of_ascii c).

(** [s.find(c)] for a one-character needle: first index, or -1. *)
Fixpoint find (c : ascii) (s : string) : Z :=
  match s with
  | EmptyString => -1
  | String a s' =>
      if Ascii.eqb a c then 0
      else let r := find c s' in if r <? 0 then -1 else r + 1
  end.

(** [s.split(c)] for a one-character separator. *)
Fixpoint split (c : ascii) (s : string) : list string :=
  match s with
  | EmptyString => [EmptyString]
  | String a s' =>
      if Ascii.eqb a c then EmptyString :: split c s'
      else match split c s' with
           | p :: ps => String a p :: ps
           | [] => [String a EmptyString]
           end
  end.

(** [int(s)] on a decimal numeral with an optional sign; [None] is
    [ValueError].  (Python also strips blanks and accepts [_] between
    digits; no string the handlers build has either.) *)
Definition int_unsigned (s : string) : option Z :=
  match s with
  | EmptyString => None
  | _ => (fun d => Z.of_N (N.of_uint d)) <$> NilEmpty.uint_of_string s
  end.

Definition int (s : string) : option Z :=
  match s with
  | String "-" s' => Z.opp <$> int_unsigned s'
  | String "+" s' => int_unsigned s'
  | _ => int_unsigned s
  end.

Definition int_or_ValueError (s : string) : res Z :=
  match int s with Some z => Ok z | None => Raise ValueError end.

(** [l.pop()]: the last element and the list without it. *)
Definition pop {A} (l : list A) : option (A * list A) :=
  match last l with
  | Some x => Some (x, removelast l)
  | None => None
  end.

(** [l[start:]], negative [start] counting from the end. *)
Definition slice_from {A} (start : Z) (l : list A) : list A :=
  if start <? 0
  then drop (Z.to_nat (Z.max 0 (Z.of_nat (length l) + start))) l
  else drop (Z.to_nat start) l.

Definition sum (l : list Z) : Z := foldr Z.add 0 l.

(** Truth value of an optional string: [None] and [''] are falsy. *)
Definition truthy (s : option string) : bool :=
  match s with
  | Some (String _ _) => true
  | _ => false
  end.

(** Decimal digits, as [int] reads them. *)
Definition is_digit (a : ascii) : bool :=
  match uint_of_char a (Some Decimal.Nil) with Some _ => true | None => false end.

Fixpoint is_digits (s : string) : bool :=
  match s with
  | EmptyString => true
  | String a s' => is_digit a && is_digits s'
  end.

(** The decimal numeral of a natural number, as [str(n)] prints it. *)
Definition numeral (n : N) : string :=
  NilEmpty.string_of_uint (N.to_uint n).

(** A dice expression [NdM], optionally followed by [+K]. *)
Definition dice_expr (n m : N) (k : option N) : string :=
  numeral n +:+ "d" +:+ numeral m +:+
  match k with Some k => "+" +:+ numeral k | None => "" end.

(** ** Rows of the store *)

Module Block.
Record t : Type := mk {
  id : Z;
  hash : option string;
  prev_hash : option string;
  creator : string;
  root_hash : string;
  suffix : string;
  difficulty : Z;
  created_at : Z  (* microseconds on the clock *)
}.
End Block.

Module Move.
Record t : Type := mk {
  id : option string;
  block_id : option Z;
  block : option Block.t;
  user : string;
  signature : option string;
  name : string;
  details : gmap string string;
  tax : Z;
  created_at : Z
}.
End Move.

(** ** Move.get_randoms and Move.roll *)

Fixpoint zip_xor (a b : string) : list Z :=
  match a, b with
  | String x a', String y b' => Z.lxor (ord x) (ord y) :: zip_xor a' b'
  | _, _ => []
  end.

Definition get_randoms (self : Move.t) : list Z :=
  match Move.block self with
  | Some block =>
      if truthy (Block.hash block) && truthy (Move.id self)
      then
        let result := zip_xor (default "" (Block.hash block))
                              (default "" (Move.id self)) in
        slice_from (Z.quot (Block.difficulty block) 4) result
      else []
  | None => []
  end.

(** The loop of [roll]: [cnt] draws; each pops one random and appends
    [v % dice_type + 1]. *)
Fixpoint roll_loop (cnt : nat) (dice_type : Z) (randoms result : list Z)
  : res (list Z * list Z) :=
  match cnt with
  | O => Ok (result, randoms)
  | S cnt' =>
      match pop randoms with
      | None => Raise OutOfRandomError
      | Some (v, randoms') =>
          if dice_type =? 0 then Raise ZeroDivisionError
          else roll_loop cnt' dice_type randoms' (result ++ [v mod dice_type + 1])
      end
  end.

(** The parsing of [roll]: [(cnt, dice_type, plus)]. *)
Definition parse_dice (dice : string) : res (Z * Z * Z) :=
  '(dice, plus) ←
     (if 0 <? find "+" dice
      then match split "+" dice with
           | [d; p] => plus ← int_or_ValueError p; Ok (d, plus)
           | _ => Raise ValueError
           end
      else Ok (dice, 0));
  match split "d" dice with
  | [c; t] =>
      cnt ← int_or_ValueError c;
      dice_type ← int_or_ValueError t;
      Ok (cnt, dice_type, plus)
  | _ => Raise ValueError
  end.

Inductive rolled : Type :=
  | Combined (total : Z)
  | Each (dice : list Z).

(** [roll randoms dice combine] returns the rolled value and the randoms
    that are left. *)
Definition roll (randoms : list Z) (dice : string) (combine : bool)
  : res (rolled * list Z) :=
  '(cnt, dice_type, plus) ← parse_dice dice;
  '(result, randoms') ← roll_loop (Z.to_nat cnt) dice_type randoms [];
  Ok (if combine then Combined (sum result + plus) else Each result, randoms').

(** [roll] with the default [combine=True], as every handler calls it. *)
Definition roll_total (randoms : list Z) (dice : string) : res (Z * list Z) :=
  '(cnt, dice_type, plus) ← parse_dice dice;
  '(result, randoms') ← roll_loop (Z.to_nat cnt) dice_type randoms [];
  Ok (sum result + plus, randoms').

(** ** Avatars *)

(** An attribute value, as [getattr] hands it out. *)
Inductive attribute : Type :=
  | VInt (z : Z)
  | VStr (s : string)
  | VItems (d : gmap string Z).

Module Avatar.
(** The class of the object: the base class [Avatar], whose [damage]
    and [max_hp] raise [NotImplementedError], or [Novice]. *)
Inductive class : Set := Base | Novice.

Record t : Type := mk {
  cls : class;
  user : string;
  name : string;
  gravatar_hash : string;
  strength : Z;
  dexterity : Z;
  constitution : Z;
  intelligence : Z;
  wisdom : Z;
  charisma : Z;
  hp : Z;
  xp : Z;
  lv : Z;
  items : gmap string Z
}.

Definition set_strength v a :=
  mk (cls a) (user a) (name a) (gravatar_hash a) v (dexterity a)
     (constitution a) (intelligence a) (wisdom a) (charisma a)
     (hp a) (xp a) (lv a) (items a).
Definition set_dexterity v a :=
  mk (cls a) (user a) (name a) (gravatar_hash a) (strength a) v
     (constitution a) (intelligence a) (wisdom a) (charisma a)
     (hp a) (xp a) (lv a) (items a).
Definition set_constitution v a :=
  mk (cls a) (user a) (name a) (gravatar_hash a) (strength a) (dexterity a)
     v (intelligence a) (wisdom a) (charisma a)
     (hp a) (xp a) (lv a) (items a).
Definition set_intelligence v a :=
  mk (cls a) (user a) (name a) (gravatar_hash a) (strength a) (dexterity a)
     (constitution a) v (wisdom a) (charisma a)
     (hp a) (xp a) (lv a) (items a).
Definition set_wisdom v a :=
  mk (cls a) (user a) (name a) (gravatar_hash a) (strength a) (dexterity a)
     (constitution a) (intelligence a) v (charisma a)
     (hp a) (xp a) (lv a) (items a).
Definition set_charisma v a :=
  mk (cls a) (user a) (name a) (gravatar_hash a) (strength a) (dexterity a)
     (constitution a) (intelligence a) (wisdom a) v
     (hp a) (xp a) (lv a) (items a).
Definition set_hp v a :=
  mk (cls a) (user a) (name a) (gravatar_hash a) (strength a) (dexterity a)
     (constitution a) (intelligence a) (wisdom a) (charisma a)
     v (xp a) (lv a) (items a).
Definition set_xp v a :=
  mk (cls a) (user a) (name a) (gravatar_hash a) (strength a) (dexterity a)
     (constitution a) (intelligence a) (wisdom a) (charisma a)
     (hp a) v (lv a) (items a).
Definition set_lv v a :=
  mk (cls a) (user a) (name a) (gravatar_hash a) (strength a) (dexterity a)
     (constitution a) (intelligence a) (wisdom a) (charisma a)
     (hp a) (xp a) v (items a).
Definition set_items v a :=
  mk (cls a) (user a) (name a) (gravatar_hash a) (strength a) (dexterity a)
     (constitution a) (intelligence a) (wisdom a) (charisma a)
     (hp a) (xp a) (lv a) v.

(** The properties [damage] and [max_hp]. *)
Definition damage (self : t) : res string :=
  match cls self with
  | Novice => Ok "1d6"
  | Base => Raise NotImplementedError
  end.

Definition max_hp (self : t) : res Z :=
  match cls self with
  | Novice => Ok (constitution self + 6)
  | Base => Raise NotImplementedError
  end.

Definition profile_image_url (self : t) : string :=
  "https://www.gravatar.com/avatar/" +:+ gravatar_hash self +:+ "?d=mm".

(** [getattr(self, name)] on the data attributes and the properties.
    Any other name is an exception for the callers below (a missing
    attribute, or a method that [+ 1] rejects): [AttributeError]. *)
Definition getattr (self : t) (attr : string) : res attribute :=
  if String.eqb attr "user" then Ok (VStr (user self)) else
  if String.eqb attr "name" then Ok (VStr (name self)) else
  if String.eqb attr "gravatar_hash" then Ok (VStr (gravatar_hash self)) else
  if String.eqb attr "strength" then Ok (VInt (strength self)) else
  if String.eqb attr "dexterity" then Ok (VInt (dexterity self)) else
  if String.eqb attr "constitution" then Ok (VInt (constitution self)) else
  if String.eqb attr "intelligence" then Ok (VInt (intelligence self)) else
  if String.eqb attr "wisdom" then Ok (VInt (wisdom self)) else
  if String.eqb attr "charisma" then Ok (VInt (charisma self)) else
  if String.eqb attr "hp" then Ok (VInt (hp self)) else
  if String.eqb attr "xp" then Ok (VInt (xp self)) else
  if String.eqb attr "lv" then Ok (VInt (lv self)) else
  if String.eqb attr "items" then Ok (VItems (items self)) else
  if String.eqb attr "max_hp" then VInt <$> max_hp self else
  if String.eqb attr "damage" then VStr <$> damage self else
  if String.eqb attr "profile_image_url" then Ok (VStr (profile_image_url self)) else
  Raise AttributeError.

(** [setattr(self, name, v)] for an integer [v]; the properties have no
    setter. *)
Definition setattr (self : t) (attr : string) (v : Z) : res t :=
  if String.eqb attr "strength" then Ok (set_strength v self) else
  if String.eqb attr "dexterity" then Ok (set_dexterity v self) else
  if String.eqb attr "constitution" then Ok (set_constitution v self) else
  if String.eqb attr "intelligence" then Ok (set_intelligence v self) else
  if String.eqb attr "wisdom" then Ok (set_wisdom v self) else
  if String.eqb attr "charisma" then Ok (set_charisma v self) else
  if String.eqb attr "hp" then Ok (set_hp v self) else
  if String.eqb attr "xp" then Ok (set_xp v self) else
  if String.eqb attr "lv" then Ok (set_lv v self) else
  Raise AttributeError.

Definition modifier_of (status : Z) : Z :=
  if bool_decide (status ∈ [1; 2; 3]) then -3
  else if bool_decide (status ∈ [4; 5]) then -2
  else if bool_decide (status ∈ [6; 7; 8]) then -1
  else if bool_decide (status ∈ [9; 10; 11; 12]) then 0
  else if bool_decide (status ∈ [13; 14; 15]) then 1
  else if bool_decide (status ∈ [16; 17]) then 2
  else if status =? 18 then 3
  else 0.

Definition modifier (self : t) (status : string) : res Z :=
  v ← getattr self status;
  Ok (match v with VInt z => modifier_of z | _ => 0 end).

Definition get_item (self : t) (item : string) : t :=
  match items self !! item with
  | None => set_items (<[item := 1]> (items self)) self
  | Some n => set_items (<[item := n + 1]> (items self)) self
  end.

(** [self.items[item] -= n] *)
Definition take_item (self : t) (item : string) (n : Z) : res t :=
  have ← getitem (items self) item;
  Ok (set_items (<[item := have - n]> (items self)) self).
End Avatar.

(** ** Monsters, battle log and move results *)

Module Monster.
(** A row of [monsters.csv] once [hp], [piercing] and [armor] are
    converted by [int]; [row] keeps the columns as read ([damage],
    [reward1] ...). *)
Record t : Type := mk {
  row : gmap string string;
  hp : Z;
  piercing : Z;
  armor : Z
}.
Definition set_hp v m := mk (row m) v (piercing m) (armor m).
End Monster.

Inductive status : Type :=
  | item_use (item status_change : string)
  | item_use_fail (item status_change : string)
  | attack_monster (damage : Z) (monster : Monster.t)
  | attacked_by_monster (damage : Z) (monster : Monster.t)
  | get_xp
  | kill_monster (monster : Monster.t)
  | get_item (item : string)
  | killed_by_monster (monster : Monster.t)
  | run (monster : Monster.t).

Module Result.
Record t : Type := mk {
  type : string;
  result : option string;
  message : option string;
  result_item : option string;
  battle_status : option (list status)
}.
End Result.

Definition str_int (z : Z) : string :=
  if z <? 0 then "-" +:+ numeral (Z.to_N (- z)) else numeral (Z.to_N z).

(** The six ability scores, by name. *)
Definition abilities : list string :=
  ["strength"; "dexterity"; "constitution"; "intelligence"; "wisdom"; "charisma"].

Definition ability (a : Avatar.t) (attr : string) : option Z :=
  if bool_decide (attr ∈ abilities)
  then match Avatar.getattr a attr with Ok (VInt z) => Some z | _ => None end
  else None.



(** How many times [k] is named in a list of items. *)
Definition times (k : string) (l : list string) : Z :=
  Z.of_nat (length (filter (λ x, x = k) l)).

(** ** The handlers of the moves

    [execute(avatar)] is modelled for a given avatar.  (With the default
    [avatar=None] the handlers first rebuild the avatar of [self.user] at
    block [self.block_id - 1] by replaying the chain.) *)

(** *** LevelUp.execute *)

Definition LevelUp_execute (self : Move.t) (avatar : Avatar.t)
  : res (Avatar.t * Result.t) :=
  if Avatar.xp avatar <? Avatar.lv avatar + 7
  then Ok (avatar,
           Result.mk "level_up" (Some "failed")
                     (Some "You don't have enough xp.") None None)
  else
    let avatar := Avatar.set_xp (Avatar.xp avatar - (Avatar.lv avatar + 7)) avatar in
    let avatar := Avatar.set_lv (Avatar.lv avatar + 1) avatar in
    new_status ← getitem (Move.details self) "new_status";
    old ← Avatar.getattr avatar new_status;
    avatar ← match old with
             | VInt z => Avatar.setattr avatar new_status (z + 1)
             | _ => Raise TypeError
             end;
    let avatar := if String.eqb new_status "constitution"
                  then Avatar.set_hp (Avatar.hp avatar + 1) avatar
                  else avatar in
    Ok (avatar, Result.mk "level_up" (Some "success") None None None).

(** *** Send.execute *)

Definition Send_execute (self : Move.t) (avatar : Avatar.t)
  : res (Avatar.t * Result.t) :=
  item_name ← getitem (Move.details self) "item_name";
  short ← match Avatar.items avatar !! item_name with
          | None => Ok true
          | Some have =>
              amount ← getitem (Move.details self) "amount" ≫= int_or_ValueError;
              Ok (have - amount <? 0)
          end;
  if short : bool
  then Ok (avatar,
           Result.mk "send" (Some "fail")
                     (Some "You don't have enough items to send.") None None)
  else
    amount ← getitem (Move.details self) "amount" ≫= int_or_ValueError;
    avatar ← Avatar.take_item avatar item_name amount;
    Ok (avatar, Result.mk "send" (Some "success") None None None).

(** *** Combine.execute *)

Definition recipes : list (string * gset string) :=
  [ ("OYKD", {[ "RICE"; "EGGS"; "CHKN" ]});
    ("CBNR", {[ "WHET"; "EGGS"; "MEAT" ]});
    ("STKD", {[ "RICE"; "RKST"; "MEAT" ]});
    ("CHKR", {[ "RICE"; "RKST"; "CHKN" ]});
    ("STEK", {[ "MEAT"; "RKST"; "OLIV" ]});
    ("STCB", {[ "STEK"; "WHET"; "EGGS" ]});
    ("FRCH", {[ "CHKN"; "RKST"; "OLIV" ]});
    ("FSWD", {[ "LSWD"; "FLNT"; "OLIV" ]});
    ("FSW1", {[ "FSWD"; "FSWD"; "FSWD" ]});
    ("FSW2", {[ "FSW1"; "FSW1"; "FSW1" ]});
    ("FSW3", {[ "FSW2"; "FSW2"; "FSW2" ]}) ].

Definition success_roll : gmap string string :=
  list_to_map
    [ ("OYKD", "1d1"); ("CBNR", "1d1"); ("STKD", "1d1"); ("CHKR", "1d1");
      ("STEK", "1d1"); ("STCB", "1d1"); ("FRCH", "1d1"); ("FSWD", "1d2");
      ("FSW1", "1d2"); ("FSW2", "1d4"); ("FSW3", "1d6") ].

Definition combine_failure : Result.t :=
  Result.mk "combine" (Some "failure") None None None.

(** The loop over [recipes.items()], in the order the dict is written. *)
Fixpoint Combine_loop (todo : list (string * gset string))
    (self : Move.t) (avatar : Avatar.t) (randoms : list Z)
  : res (Avatar.t * Result.t) :=
  match todo with
  | [] => Ok (avatar, combine_failure)
  | (result, recipe) :: todo' =>
      item1 ← getitem (Move.details self) "item1";
      item2 ← getitem (Move.details self) "item2";
      item3 ← getitem (Move.details self) "item3";
      if bool_decide (recipe = {[ item1; item2; item3 ]})
      then
        avatar ← Avatar.take_item avatar item1 1;
        avatar ← Avatar.take_item avatar item2 1;
        avatar ← Avatar.take_item avatar item3 1;
        dice ← getitem success_roll result;
        '(rolled, _) ← roll_total randoms dice;
        if rolled =? 1
        then Ok (Avatar.get_item avatar result,
                 Result.mk "combine" (Some "success") None (Some result) None)
        else Ok (avatar, combine_failure)
      else Combine_loop todo' self avatar randoms
  end.

(** [Combine_run] is [execute] on a given stream of randoms. *)
Definition Combine_run (self : Move.t) (avatar : Avatar.t) (randoms : list Z)
  : res (Avatar.t * Result.t) :=
  Combine_loop recipes self avatar randoms.

Definition Combine_execute (self : Move.t) (avatar : Avatar.t)
  : res (Avatar.t * Result.t) :=
  Combine_run self avatar (get_randoms self).


(** *** HackAndSlash.execute

    The body of the [while] loop mutates the avatar, the monster, the
    randoms and the battle log, and what it has done stays done when
    [OutOfRandomError] ends the fight: the state is threaded through a
    state-and-exception monad. *)

Module Battle.
Record t : Type := mk {
  avatar : Avatar.t;
  monster : Monster.t;
  randoms : list Z;
  battle_status : list status
}.
End Battle.

Record M (A : Type) : Type := MkM { runM : Battle.t → Battle.t * res A }.
Arguments MkM {A} _.
Arguments runM {A} _ _.

#[global] Instance M_ret : MRet M := fun _ a => MkM (fun s => (s, Ok a)).
#[global] Instance M_bind : MBind M := fun _ _ f m =>
  MkM (fun s => match runM m s with
                | (s', Ok a) => runM (f a) s'
                | (s', Raise e) => (s', Raise e)
                end).

Definition lift {A} (r : res A) : M A := MkM (fun s => (s, r)).
Definition get_avatar : M Avatar.t := MkM (fun s => (s, Ok (Battle.avatar s))).
Definition get_monster : M Monster.t := MkM (fun s => (s, Ok (Battle.monster s))).
Definition get_status : M (list status) :=
  MkM (fun s => (s, Ok (Battle.battle_status s))).
Definition set_avatar (a : Avatar.t) : M unit :=
  MkM (fun s => (Battle.mk a (Battle.monster s) (Battle.randoms s)
                           (Battle.battle_status s), Ok ())).
Definition set_monster (m : Monster.t) : M unit :=
  MkM (fun s => (Battle.mk (Battle.avatar s) m (Battle.randoms s)
                           (Battle.battle_status s), Ok ())).
Definition append (e : status) : M unit :=
  MkM (fun s => (Battle.mk (Battle.avatar s) (Battle.monster s) (Battle.randoms s)
                           (Battle.battle_status s ++ [e]), Ok ())).

(** [self.roll(randoms, dice)] on the randoms of the fight. *)
Definition rollM (dice : string) : M Z :=
  MkM (fun s => match roll_total (Battle.randoms s) dice with
                | Ok (v, randoms') =>
                    (Battle.mk (Battle.avatar s) (Battle.monster s) randoms'
                               (Battle.battle_status s), Ok v)
                | Raise e => (s, Raise e)
                end).

(** The bandage.  [avatar.hp <= avatar.max_hp * 0.2] is a comparison with
    a float; for integers below 2^53 it is [5 * hp <= max_hp]. *)
Definition bandage : M unit :=
  avatar ← get_avatar;
  max_hp ← lift (Avatar.max_hp avatar);
  if (5 * Avatar.hp avatar <=? max_hp)
     && match Avatar.items avatar !! "BNDG" with
        | Some n => 0 <? n
        | None => false
        end
  then
    rolled ← rollM "2d6";
    if 7 <=? rolled
    then
      avatar ← lift (Avatar.take_item
                       (Avatar.set_hp (Avatar.hp avatar + 4) avatar) "BNDG" 1);
      _ ← set_avatar avatar;
      append (item_use "BNDG" "HP +4")
    else
      avatar ← lift (Avatar.take_item avatar "BNDG" 1);
      _ ← set_avatar avatar;
      append (item_use_fail "BNDG" "")
  else mret ().

(** The exchange of blows. *)
Definition exchange : M unit :=
  r ← rollM "2d6";
  avatar ← get_avatar;
  modifier ← lift (Avatar.modifier avatar "strength");
  let rolled := r + modifier in
  if 7 <=? rolled
  then
    dice ← lift (Avatar.damage avatar);
    d ← rollM dice;
    monster ← get_monster;
    let damage := Z.max (d - Monster.armor monster) 0 in
    _ ← append (attack_monster damage monster);
    set_monster (Monster.set_hp (Monster.hp monster - damage) monster)
  else if bool_decide (rolled ∈ [2; 3; 4; 5; 6; 7; 8; 9])
  then
    monster ← get_monster;
    dice ← lift (getitem (Monster.row monster) "damage");
    monster_damage ← rollM dice;
    _ ← append (attacked_by_monster monster_damage monster);
    let avatar := Avatar.set_hp (Avatar.hp avatar - monster_damage) avatar in
    _ ← set_avatar avatar;
    if rolled <=? 6
    then
      _ ← append get_xp;
      set_avatar (Avatar.set_xp (Avatar.xp avatar + 1) avatar)
    else mret ()
  else mret ().

Definition battle_result (result : string) (log : list status) : Result.t :=
  Result.mk "hack_and_slash" (Some result) None None (Some log).

(** The end of a round: [Some r] is [return (avatar, r)], [None] goes round
    the loop again. *)
Definition outcome : M (option Result.t) :=
  monster ← get_monster;
  if Monster.hp monster <=? 0
  then
    _ ← append (kill_monster monster);
    reward_code ← rollM "1d10";
    reward ← lift (getitem (Monster.row monster) ("reward" +:+ str_int reward_code));
    _ ← (match reward with
         | EmptyString => mret ()
         | _ =>
             avatar ← get_avatar;
             _ ← set_avatar (Avatar.get_item avatar reward);
             append (get_item reward)
         end);
    log ← get_status;
    mret (Some (battle_result "win" log))
  else
    avatar ← get_avatar;
    if Avatar.hp avatar <=? 0
    then
      _ ← append (killed_by_monster monster);
      log ← get_status;
      mret (Some (battle_result "lose" log))
    else mret None.

Definition round : M (option Result.t) :=
  _ ← bandage; _ ← exchange; outcome.

(** [while True: try: ... except OutOfRandomError: ...]; [None] is the
    fuel running out. *)
Fixpoint battle (fuel : nat) (s : Battle.t) : option (res (Avatar.t * Result.t)) :=
  match fuel with
  | O => None
  | S fuel' =>
      match runM round s with
      | (s', Ok (Some r)) => Some (Ok (Battle.avatar s', r))
      | (s', Ok None) => battle fuel' s'
      | (s', Raise OutOfRandomError) =>
          Some (Ok (Battle.avatar s',
                    battle_result "finish"
                      (Battle.battle_status s' ++ [run (Battle.monster s')])))
      | (_, Raise e) => Some (Raise e)
      end
  end.

Definition load_monster (row : gmap string string) : res Monster.t :=
  hp ← getitem row "hp" ≫= int_or_ValueError;
  piercing ← getitem row "piercing" ≫= int_or_ValueError;
  armor ← getitem row "armor" ≫= int_or_ValueError;
  Ok (Monster.mk row hp piercing armor).

(** [HackAndSlash_run] is [execute] on a given stream of randoms and the
    rows of [data/monsters.csv]. *)
Definition HackAndSlash_run (monsters : list (gmap string string))
    (avatar : Avatar.t) (randoms : list Z)
  : option (res (Avatar.t * Result.t)) :=
  match pop randoms with
  | None => Some (Raise IndexError)
  | Some (v, randoms) =>
      if Z.of_nat (length monsters) =? 0 then Some (Raise ZeroDivisionError)
      else
        match monsters !! Z.to_nat (v mod Z.of_nat (length monsters)) with
        | None => Some (Raise IndexError)
        | Some row =>
            match load_monster row with
            | Raise e => Some (Raise e)
            | Ok monster =>
                battle (S (length randoms)) (Battle.mk avatar monster randoms [])
            end
        end
  end.

Definition HackAndSlash_execute (monsters : list (gmap string string))
    (self : Move.t) (avatar : Avatar.t)
  : option (res (Avatar.t * Result.t)) :=
  HackAndSlash_run monsters avatar (get_randoms self).

(** ** Blocks: serialization, validity, minting

    The hash function, bencode, the signature scheme, base58 and the
    hashcash module are taken as given. *)

#[warnings="-register-all"]
Inductive bvalue : Type :=
  | BInt (z : Z)
  | BStr (s : string)
  | BDict (d : gmap string bvalue).

Class Primitives : Type := {
  (** [h(s.encode('utf-8')).hexdigest()] *)
  sha256_hexdigest : string → string;
  bencode : bvalue → string;
  (** [hashcash.check(stamp, suffix, bits)] and [hashcash._mint(s, bits)] *)
  hashcash_check : string → string → Z → bool;
  hashcash_mint : string → Z → string;
  (** [seccure.verify(message, signature, public_key)] *)
  seccure_verify : string → string → string → bool;
  seccure_passphrase_to_pubkey : string → string;
  base58_encode : string → string;
  (** [str(created_at)] *)
  str_datetime : Z → string
}.

(** [timedelta / int]: the quotient in microseconds, rounded to the
    nearest, halves to the even one. *)
Definition divide_and_round (a b : Z) : Z :=
  let q := a / b in
  let r := 2 * (a mod b) in
  let greater_than_half := if 0 <? b then b <? r else r <? b in
  if greater_than_half || ((r =? b) && (q mod 2 =? 1)) then q + 1 else q.

Definition timedelta_div (delta : Z) (n : Z) : res Z :=
  if n =? 0 then Raise ZeroDivisionError else Ok (divide_and_round delta n).

(** [datetime.timedelta(0, n)], in microseconds. *)
Definition seconds (n : Z) : Z := n * 1000000.

Module Store.
(** The session: the block table by id and the move table by id. *)
Record t : Type := mk {
  blocks : gmap Z Block.t;
  moves : gmap string Move.t
}.
End Store.

(** [session.query(Block).order_by(Block.id.desc()).first()] *)
Definition max_key (keys : list Z) : option Z :=
  foldr (λ k acc, Some (match acc with Some k' => Z.max k k' | None => k end))
        None keys.

Definition last_block (blocks : gmap Z Block.t) : option Block.t :=
  k ← max_key (elements (dom blocks)); blocks !! k.

Module User.
Record t : Type := mk { private_key : string }.
End User.

Section WithPrimitives.
Context `{Primitives}.

Definition get_address (public_key : string) : string :=
  base58_encode public_key.

Definition User_public_key (self : User.t) : string :=
  seccure_passphrase_to_pubkey (User.private_key self).

Definition User_address (self : User.t) : string :=
  get_address (User_public_key self).

(** [Block.serialize()] with its defaults: bencoded, without suffix,
    moves and hash; [prev_hash] is left out when it is [None]. *)
Definition Block_serialize (self : Block.t) : string :=
  let serialized : gmap string bvalue :=
    <[ "id" := BInt (Block.id self) ]>
    (<[ "creator" := BStr (Block.creator self) ]>
    (<[ "difficulty" := BInt (Block.difficulty self) ]>
    (<[ "root_hash" := BStr (Block.root_hash self) ]>
    {[ "created_at" := BStr (str_datetime (Block.created_at self)) ]}))) in
  let serialized :=
    match Block.prev_hash self with
    | Some p => <[ "prev_hash" := BStr p ]> serialized
    | None => serialized
    end in
  bencode (BDict serialized).

(** [Move.serialize(include_signature=...)], bencoded, without id and
    block.  (It is only reached with a signature when it includes one.) *)
Definition Move_serialize (self : Move.t) (include_signature : bool) : string :=
  let serialized : gmap string bvalue :=
    <[ "user" := BStr (Move.user self) ]>
    (<[ "name" := BStr (Move.name self) ]>
    (<[ "details" := BDict (BStr <$> Move.details self) ]>
    (<[ "tax" := BInt (Move.tax self) ]>
    {[ "created_at" := BStr (str_datetime (Move.created_at self)) ]}))) in
  let serialized :=
    match include_signature, Move.signature self with
    | true, Some signature => <[ "signature" := BStr signature ]> serialized
    | _, _ => serialized
    end in
  bencode (BDict serialized).

Definition Move_hash (self : Move.t) : string :=
  sha256_hexdigest (Move_serialize self true).

Definition Move_valid (self : Move.t) : bool :=
  match Move.signature self with
  | None => false
  | Some signature =>
      if find " " signature <? 0 then false
      else
        match split " " signature with
        | sig :: public_key :: _ =>
            seccure_verify (Move_serialize self false) sig public_key
            && bool_decide (Move.user self = get_address public_key)
            && bool_decide (Move.id self = Some (Move_hash self))
        | _ => false
        end
  end.

(** [Block.valid]; [moves] is the collection [self.moves]. *)
Definition Block_valid (self : Block.t) (moves : list Move.t) : bool :=
  let stamp := Block_serialize self +:+ Block.suffix self in
  let valid := bool_decide (Block.hash self = Some (sha256_hexdigest stamp)) in
  let valid :=
    valid && hashcash_check stamp (Block.suffix self) (Block.difficulty self) in
  foldl (λ valid move, valid && Move_valid move) valid moves.

(** [h(''.join(sorted(m.id for m in moves)).encode('utf-8')).hexdigest()];
    the moves have passed [valid] and have an id. *)
Definition root_hash_of (moves : list Move.t) : string :=
  sha256_hexdigest
    (foldr String.append "" (merge_sort String.le (omap Move.id moves))).

(** [User.create_block] at the time [now]: the block it returns, or
    [None] when the id is taken, and the store after it. *)
Definition User_create_block (self : User.t) (now : Z) (st : Store.t)
    (moves : list Move.t) (commit : bool) : res (option Block.t * Store.t) :=
  if negb (forallb Move_valid moves) then Raise InvalidMoveError
  else
    let root_hash := root_hash_of moves in
    let creator := User_address self in
    let created_at := now in
    '(id, prev_hash, difficulty) ←
      match last_block (Store.blocks st) with
      | Some prev_block =>
          let id := Block.id prev_block + 1 in
          let difficulty := Block.difficulty prev_block in
          match Store.blocks st !! Z.max 1 (id - 10) with
          | None => Raise AttributeError
          | Some difficulty_check_block =>
              avg_timedelta ←
                timedelta_div (created_at - Block.created_at difficulty_check_block)
                              (id - Block.id difficulty_check_block);
              let difficulty :=
                if avg_timedelta <=? seconds 5 then difficulty + 1
                else if seconds 15 <? avg_timedelta then difficulty - 1
                else difficulty in
              Ok (id, Block.hash prev_block, difficulty)
          end
      | None => Ok (1, None, 0)
      end;
    let unhashed suffix :=
      Block.mk id None prev_hash creator root_hash suffix difficulty created_at in
    let suffix := hashcash_mint (Block_serialize (unhashed "")) difficulty in
    match Store.blocks st !! id with
    | Some _ => Ok (None, st)
    | None =>
        let hash :=
          sha256_hexdigest (Block_serialize (unhashed suffix) +:+ suffix) in
        let block :=
          Block.mk id (Some hash) prev_hash creator root_hash suffix
                   difficulty created_at in
        let attach (m : Move.t) :=
          Move.mk (Move.id m) (Some id) (Some block) (Move.user m)
                  (Move.signature m) (Move.name m) (Move.details m)
                  (Move.tax m) (Move.created_at m) in
        let st' :=
          if commit
          then Store.mk (<[ id := block ]> (Store.blocks st))
                        (foldr (λ m ms, match Move.id m with
                                        | Some k => <[ k := attach m ]> ms
                                        | None => ms
                                        end)
                               (Store.moves st) moves)
          else st in
        Ok (Some block, st')
    end.
End WithPrimitives.

(** ** Block.sync *)

Module Node.
(** What a peer answers: [GET /blocks/last], [GET /blocks/<id>] and
    [GET /blocks?from=<id>], a block coming with its moves. *)
Record t : Type := mk {
  last : option (Block.t * list Move.t);
  block : Z → option Block.t;
  blocks_from : Z → list (Block.t * list Move.t)
}.
End Node.

(** The test of the probe at [mid]: the peer has a block there and the
    local block has the same hash.  [block.hash] on a missing local block
    is an [AttributeError]. *)
Definition same_hash (blocks : gmap Z Block.t) (node : Node.t) (mid : Z)
  : res bool :=
  match Node.block node mid with
  | Some theirs =>
      match blocks !! mid with
      | Some block => Ok (bool_decide (Block.hash block = Block.hash theirs))
      | None => Raise AttributeError
      end
  | None => Ok false
  end.

Equations? find_branch_point (blocks : gmap Z Block.t) (node : Node.t)
    (value high : Z) : res Z by wf (Z.to_nat (high - value + 1)) lt :=
  find_branch_point blocks node value high :=
    let mid := Z.quot (value + high) 2 in
    match Z_gt_dec value high with
    | left _ => Ok 0
    | right Hle =>
        match same_hash blocks node mid with
        | Raise e => Raise e
        | Ok true =>
            match Z.eq_dec value mid with
            | left _ => Ok value
            | right Hne => find_branch_point blocks node mid high
            end
        | Ok false => find_branch_point blocks node value (mid - 1)
        end
    end.
Proof.
  all: subst mid;
    pose proof (Z.quot_rem' (value + high) 2);
    pose proof (Z.rem_bound_abs (value + high) 2); lia.
Defined.

(** The branch point, as [sync] works it out. *)
Definition branch_point (blocks : gmap Z Block.t) (node : Node.t) : res Z :=
  match last_block blocks with
  | Some last_block =>
      probe ← find_branch_point blocks node (Block.id last_block)
                                (Block.id last_block);
      if probe =? Block.id last_block then Ok (Block.id last_block)
      else find_branch_point blocks node 0 (Block.id last_block)
  | None => Ok 0
  end.

(** A chain of blocks with the given hashes at the ids 1, 2, ... *)
Definition chain_of (hashes : list string) : gmap Z Block.t :=
  list_to_map
    (imap (λ i h, (Z.of_nat i + 1,
                   Block.mk (Z.of_nat i + 1) (Some h) None "" "" "" 0 0))
          hashes).

Definition node_of (hashes : list string) : Node.t :=
  Node.mk ((λ b, (b, [])) <$> last_block (chain_of hashes))
          (λ i, chain_of hashes !! i)
          (λ i, []).

(** The blocks above the branch point are deleted and their moves
    detached. *)
Definition detach (m : Move.t) : Move.t :=
  Move.mk (Move.id m) None None (Move.user m) (Move.signature m) (Move.name m)
          (Move.details m) (Move.tax m) (Move.created_at m).

Definition delete_after (branch_point : Z) (st : Store.t) : Store.t :=
  Store.mk
    (filter (λ kb, kb.1 ≤ branch_point) (Store.blocks st))
    ((λ m, match Move.block_id m with
           | Some k =>
               if bool_decide (branch_point < k ∧ is_Some (Store.blocks st !! k))
               then detach m else m
           | None => m
           end) <$> Store.moves st).

Section Sync.
Context `{Primitives}.

(** The move of a fetched block: the row with that id when there is one,
    a new row otherwise. *)
Definition materialize (st : Store.t) (block_id : Z) (new_move : Move.t)
  : Move.t :=
  match Move.id new_move ≫= (λ k, Store.moves st !! k) with
  | Some move => move
  | None =>
      Move.mk (Move.id new_move) (Some block_id) None (Move.user new_move)
              (Move.signature new_move) (Move.name new_move)
              (Move.details new_move) (Move.tax new_move)
              (Move.created_at new_move)
  end.

Definition add_move (move : Move.t) (st : Store.t) : Store.t :=
  match Move.id move with
  | Some k => Store.mk (Store.blocks st) (<[ k := move ]> (Store.moves st))
  | None => st
  end.

Fixpoint sync_moves (st : Store.t) (block_id : Z) (new_moves : list Move.t)
  : res (Store.t * list Move.t) :=
  match new_moves with
  | [] => Ok (st, [])
  | new_move :: rest =>
      let move := materialize st block_id new_move in
      if Move_valid move
      then '(st', moves) ← sync_moves (add_move move st) block_id rest;
           Ok (st', move :: moves)
      else Raise InvalidMoveError
  end.

(** The loop over the fetched blocks.  When [block.valid] is asked, every
    move of the new block has passed [valid]: the loop of [valid] over
    [block.moves] finds no invalid move among them. *)
Fixpoint sync_blocks (new_blocks : list (Block.t * list Move.t)) (st : Store.t)
  : res Store.t :=
  match new_blocks with
  | [] => Ok st
  | (block, new_moves) :: rest =>
      '(st, moves) ← sync_moves st (Block.id block) new_moves;
      if Block_valid block moves
      then sync_blocks rest
             (Store.mk (<[ Block.id block := block ]> (Store.blocks st))
                       (Store.moves st))
      else Raise InvalidBlockError
  end.

(** [Block.sync]: the store it leaves and what it returns or raises.  A
    rollback leaves the store as it was. *)
Definition Block_sync (node : option Node.t) (st : Store.t)
  : Store.t * res bool :=
  match node with
  | None => (st, Ok true)
  | Some node =>
      match Node.last node with
      | None => (st, Ok true)
      | Some (node_last_block, _) =>
          if match last_block (Store.blocks st) with
             | Some last_block => Block.id node_last_block <=? Block.id last_block
             | None => false
             end
          then (st, Ok true)
          else
            match branch_point (Store.blocks st) node with
            | Raise e => (st, Raise e)
            | Ok branch_point =>
                match sync_blocks (Node.blocks_from node (branch_point + 1))
                                  (delete_after branch_point st) with
                | Ok st' => (st', Ok true)
                | Raise e => (st, Raise e)
                end
            end
      end
  end.
End Sync.


(** The change of difficulty for an average time [avg] between blocks. *)
Definition difficulty_change (avg : Z) : Z :=
  if avg <=? seconds 5 then 1 else if seconds 15 <? avg then -1 else 0.

(** Stand-ins for the primitives, to run the definitions on examples: the
    hash is the identity, every stamp passes hashcash, every signature
    verifies. *)
Definition toy : Primitives := {|
  sha256_hexdigest := λ s, s;
  bencode := λ v, match v with
                  | BDict d => match d !! "id" with
                               | Some (BInt z) => str_int z
                               | _ => "d"
                               end
                  | _ => "v"
                  end;
  hashcash_check := λ _ _ _, true;
  hashcash_mint := λ _ _, "0";
  seccure_verify := λ _ _ _, true;
  seccure_passphrase_to_pubkey := λ s, s;
  base58_encode := λ s, s;
  str_datetime := str_int
|}.

(** A step of the fight never puts randoms back. *)
Definition shrinking {A} (m : M A) : Prop :=
  ∀ s s' x, runM m s = (s', x) →
    (length (Battle.randoms s') ≤ length (Battle.randoms s))%nat.

(** A step of the fight that never raises [e]. *)
Definition spares (e : exn) {A} (m : M A) : Prop :=
  ∀ s s', runM m s ≠ (s', Raise e).

(** ** Notions used to state further properties of the code *)

(** The characters of a [hexdigest()]. *)
Definition is_hex (a : ascii) : bool :=
  bool_decide (a ∈ ["0"; "1"; "2"; "3"; "4"; "5"; "6"; "7"; "8"; "9";
                    "a"; "b"; "c"; "d"; "e"; "f"]%char).

Fixpoint all_hex (s : string) : bool :=
  match s with
  | EmptyString => true
  | String a s' => is_hex a && all_hex s'
  end.

(** ** The other handlers: Sleep, CreateNovice, Say, Send.receive *)

Definition Sleep_execute (self : Move.t) (avatar : Avatar.t)
  : res (Avatar.t * Result.t) :=
  max_hp ← Avatar.max_hp avatar;
  Ok (Avatar.set_hp max_hp avatar,
      Result.mk "sleep" (Some "success") None None None).

Definition Say_execute (self : Move.t) (avatar : Avatar.t)
  : res (Avatar.t * Result.t) :=
  content ← getitem (Move.details self) "content";
  Ok (avatar, Result.mk "say" None (Some content) None None).

(** [CreateNovice.execute(avatar)]: the new [Novice], the block it records
    as [current_block], and the result.  An avatar that is passed in only
    hands on its gold. *)
Definition CreateNovice_execute (self : Move.t) (avatar : option Avatar.t)
  : res (Avatar.t * option Block.t * Result.t) :=
  gold ← match avatar with
         | Some avatar => getitem (Avatar.items avatar) "GOLD"
         | None => Ok 0
         end;
  strength ← getitem (Move.details self) "strength" ≫= int_or_ValueError;
  dexterity ← getitem (Move.details self) "dexterity" ≫= int_or_ValueError;
  constitution ← getitem (Move.details self) "constitution" ≫= int_or_ValueError;
  intelligence ← getitem (Move.details self) "intelligence" ≫= int_or_ValueError;
  wisdom ← getitem (Move.details self) "wisdom" ≫= int_or_ValueError;
  charisma ← getitem (Move.details self) "charisma" ≫= int_or_ValueError;
  let name := match Move.details self !! "name" with
              | Some name => name
              | None => String.substring 0 6 (Move.user self)
              end in
  let gravatar_hash := match Move.details self !! "gravatar_hash" with
                       | Some gravatar_hash => gravatar_hash
                       | None => "HASH"
                       end in
  let avatar :=
    Avatar.mk Avatar.Novice (Move.user self) name gravatar_hash
              strength dexterity constitution intelligence wisdom charisma
              0 0 0 ∅ in
  max_hp ← Avatar.max_hp avatar;
  let avatar := Avatar.set_hp max_hp avatar in
  let avatar := Avatar.set_xp 0 avatar in
  let avatar := Avatar.set_lv 1 avatar in
  let avatar := Avatar.set_items {[ "GOLD" := gold ]} avatar in
  Ok (avatar, Move.block self,
      Result.mk "create_novice" (Some "success") None None None).

(** [Send.receive(receiver)]: [get_item] once per unit of the amount. *)
Definition Send_receive (self : Move.t) (receiver : Avatar.t)
  : res (Avatar.t * Result.t) :=
  amount ← getitem (Move.details self) "amount" ≫= int_or_ValueError;
  receiver ←
    match Z.to_nat amount with
    | O => Ok receiver
    | S _ as times =>
        item_name ← getitem (Move.details self) "item_name";
        Ok (Nat.iter times (λ a, Avatar.get_item a item_name) receiver)
    end;
  Ok (receiver, Result.mk "receive" (Some "success") None None None).

(** How many of an item an avatar has, nothing being 0. *)
Definition count (avatar : Avatar.t) (item : string) : Z :=
  default 0 (Avatar.items avatar !! item).

(** The names that [getattr] knows on an avatar. *)
Definition attributes : list string :=
  ["user"; "name"; "gravatar_hash"; "strength"; "dexterity"; "constitution";
   "intelligence"; "wisdom"; "charisma"; "hp"; "xp"; "lv"; "items"; "max_hp";
   "damage"; "profile_image_url"].

(** [int(self.details[key])] when the key is there and reads as a number. *)
Definition detail_int (self : Move.t) (key : string) : option Z :=
  Move.details self !! key ≫= int.

(** The gold that [CreateNovice.execute] carries over from the avatar it
    is given. *)
Definition carried_gold (avatar : option Avatar.t) (gold : Z) : Prop :=
  match avatar with
  | Some old => Avatar.items old !! "GOLD" = Some gold
  | None => gold = 0
  end.

(** What a fight leaves alone in an avatar: who it is, its six abilities
    and its level. *)
Definition same_character (a a' : Avatar.t) : Prop :=
  Avatar.cls a' = Avatar.cls a ∧ Avatar.user a' = Avatar.user a
  ∧ Avatar.name a' = Avatar.name a
  ∧ Avatar.gravatar_hash a' = Avatar.gravatar_hash a
  ∧ Avatar.strength a' = Avatar.strength a
  ∧ Avatar.dexterity a' = Avatar.dexterity a
  ∧ Avatar.constitution a' = Avatar.constitution a
  ∧ Avatar.intelligence a' = Avatar.intelligence a
  ∧ Avatar.wisdom a' = Avatar.wisdom a
  ∧ Avatar.charisma a' = Avatar.charisma a
  ∧ Avatar.lv a' = Avatar.lv a.

(** What a round of the fight keeps: the character, xp that does not go
    down, the row of the monster, and a log that only grows. *)
Definition round_keeps (s s' : Battle.t) : Prop :=
  same_character (Battle.avatar s) (Battle.avatar s')
  ∧ Avatar.xp (Battle.avatar s) ≤ Avatar.xp (Battle.avatar s')
  ∧ Monster.row (Battle.monster s') = Monster.row (Battle.monster s)
  ∧ ∃ more, Battle.battle_status s' = Battle.battle_status s ++ more.

(** A row of the monster table that a fight can be fought on: [hp],
    [piercing] and [armor] are integers, [damage] is a dice expression
    with a die of at least one side, and the ten reward columns are
    there. *)
Definition fair_row (row : gmap string string) : Prop :=
  (∃ hp piercing armor,
      row !! "hp" = Some (str_int hp)
      ∧ row !! "piercing" = Some (str_int piercing)
      ∧ row !! "armor" = Some (str_int armor))
  ∧ (∃ n m k, row !! "damage" = Some (dice_expr n m k) ∧ (0 < m)%N)
  ∧ ∀ code, 1 ≤ code ≤ 10 → is_Some (row !! ("reward" +:+ str_int code)).

(** A state of the fight in which no step can fail but for want of
    randoms: a [Novice] against a monster of a fair row. *)
Definition fights_on (s : Battle.t) : Prop :=
  Avatar.cls (Battle.avatar s) = Avatar.Novice
  ∧ fair_row (Monster.row (Battle.monster s)).

(* ================================================================== *)
(** * Theorems *)

Example roll_doctest : roll [1; 7; 3] "2d6" true = Ok (Combined 6, [1]).
Proof. reflexivity. Qed.

(** ** Strings: numerals hold digits only *)

Lemma is_digits_string_of_uint d : is_digits (NilEmpty.string_of_uint d) = true.
Proof. induction d; simpl; auto. Qed.

Lemma numeral_digits n : is_digits (numeral n) = true.
Proof. apply is_digits_string_of_uint. Qed.

Lemma string_of_uint_nonempty d :
  d ≠ Decimal.Nil → NilEmpty.string_of_uint d ≠ EmptyString.
Proof. destruct d; simpl; congruence. Qed.

Lemma numeral_nonempty n : numeral n ≠ EmptyString.
Proof.
  unfold numeral. apply string_of_uint_nonempty.
  destruct n as [|p]; simpl; [discriminate | apply DecimalPos.Unsigned.to_uint_nonnil].
Qed.

Lemma int_unsigned_numeral n : int_unsigned (numeral n) = Some (Z.of_N n).
Proof.
  unfold int_unsigned. pose proof (numeral_nonempty n) as Hne.
  destruct (numeral n) eqn:E; [congruence |].
  rewrite <- E. unfold numeral. rewrite NilEmpty.usu. simpl.
  by rewrite DecimalN.Unsigned.of_to.
Qed.

Lemma is_digit_not (a c : ascii) :
  is_digit a = true → is_digit c = false → Ascii.eqb a c = false.
Proof.
  intros Ha Hc. destruct (Ascii.eqb_spec a c) as [->|]; [congruence | done].
Qed.

Lemma int_digits s : is_digits s = true → int s = int_unsigned s.
Proof.
  destruct s as [|a s]; [done |]. simpl. intros [Ha _]%andb_true_iff.
  unfold int.
  destruct a as [[] [] [] [] [] [] [] []]; try reflexivity; discriminate Ha.
Qed.

Lemma int_numeral n : int (numeral n) = Some (Z.of_N n).
Proof. rewrite int_digits by apply numeral_digits. apply int_unsigned_numeral. Qed.

Lemma find_digits c s : is_digit c = false → is_digits s = true → find c s = -1.
Proof.
  intros Hc. induction s as [|a s IH]; [done |]. simpl.
  intros [Ha Hs]%andb_true_iff. rewrite (is_digit_not a c) by done.
  by rewrite IH.
Qed.

Lemma split_digits c s : is_digit c = false → is_digits s = true → split c s = [s].
Proof.
  intros Hc. induction s as [|a s IH]; [done |]. simpl.
  intros [Ha Hs]%andb_true_iff. rewrite (is_digit_not a c) by done.
  by rewrite IH.
Qed.

Lemma append_empty_r (s : string) : s +:+ "" = s.
Proof. induction s as [|a s IH]; simpl; [done | by rewrite IH]. Qed.

Lemma is_digits_app s1 s2 :
  is_digits s1 = true → is_digits s2 = true → is_digits (s1 +:+ s2) = true.
Proof.
  induction s1; simpl; [done |].
  intros [-> ?]%andb_true_iff ?. simpl. auto.
Qed.

Lemma split_cons c s : ∃ p ps, split c s = p :: ps.
Proof.
  induction s as [|a s [p [ps IH]]]; simpl; [eauto |].
  destruct (Ascii.eqb a c); [eauto |]. rewrite IH. eauto.
Qed.

(** A run of digits in front of [t] shifts what [find] and [split] give
    on [t]. *)
Lemma find_app_digits c s1 t :
  is_digit c = false → is_digits s1 = true →
  find c (s1 +:+ t) =
    if find c t <? 0 then -1 else Z.of_nat (String.length s1) + find c t.
Proof.
  intros Hc. induction s1 as [|a s1 IH]; simpl.
  - intros _. destruct (Z.ltb_spec (find c t) 0); [| done].
    assert (Hge : ∀ u, -1 ≤ find c u).
    { clear. induction u as [|b u IHu]; simpl; [lia |].
      destruct (Ascii.eqb b c); [lia |].
      destruct (Z.ltb_spec (find c u) 0); lia. }
    specialize (Hge t). lia.
  - intros [Ha Hs]%andb_true_iff. rewrite (is_digit_not a c) by done.
    rewrite IH by done.
    destruct (Z.ltb_spec (find c t) 0) as [Hlt|Hge]; [done |].
    destruct (Z.ltb_spec (Z.of_nat (String.length s1) + find c t) 0); lia.
Qed.

Lemma split_app_digits c s1 t p ps :
  is_digit c = false → is_digits s1 = true →
  split c t = p :: ps →
  split c (s1 +:+ t) = (s1 +:+ p) :: ps.
Proof.
  intros Hc Hs1 Ht. induction s1 as [|a s1 IH]; simpl; [done |].
  apply andb_true_iff in Hs1 as [Ha Hs]. rewrite (is_digit_not a c) by done.
  by rewrite IH.
Qed.

(** ** The dice parser on [NdM] and [NdM+K] *)

Lemma parse_dice_expr n m k :
  parse_dice (dice_expr n m k) =
    Ok (Z.of_N n, Z.of_N m, from_option Z.of_N 0 k).
Proof.
  assert (Hplus : is_digit "+" = false) by reflexivity.
  assert (Hd : is_digit "d" = false) by reflexivity.
  pose proof (numeral_digits n) as Hn. pose proof (numeral_digits m) as Hm.
  unfold parse_dice, dice_expr. destruct k as [k|]; simpl.
  - pose proof (numeral_digits k) as Hk.
    assert (Hsplit : split "+" (numeral n +:+ String "d" (numeral m +:+ String "+" (numeral k)))
                     = [numeral n +:+ String "d" (numeral m); numeral k]).
    { erewrite split_app_digits; [| done | done |].
      2:{ simpl. erewrite split_app_digits; [| done | done |].
          2:{ simpl. rewrite split_digits by done. reflexivity. }
          reflexivity. }
      by rewrite append_empty_r. }
    rewrite find_app_digits by done. simpl.
    rewrite find_app_digits by done. simpl.
    replace (0 <? _) with true.
    2:{ symmetry. apply Z.ltb_lt.
        destruct (Z.ltb_spec (Z.of_nat (String.length (numeral m)) + 0) 0); [lia |].
        simpl. destruct (Z.ltb_spec (Z.of_nat (String.length (numeral m)) + 0 + 1) 0); lia. }
    rewrite Hsplit. unfold int_or_ValueError. rewrite int_numeral. simpl.
    erewrite split_app_digits; [| done | done |].
    2:{ simpl. rewrite split_digits by done. reflexivity. }
    rewrite append_empty_r, !int_numeral. reflexivity.
  - rewrite append_empty_r.
    rewrite find_app_digits by done. simpl.
    rewrite (find_digits "+" (numeral m)) by done. simpl.
    erewrite split_app_digits; [| done | done |].
    2:{ simpl. rewrite split_digits by done. reflexivity. }
    unfold int_or_ValueError. rewrite append_empty_r, !int_numeral. reflexivity.
Qed.

(** ** The drawing loop *)

Lemma pop_snoc {A} (l : list A) x : pop (l ++ [x]) = Some (x, l).
Proof. unfold pop. by rewrite last_snoc, removelast_last. Qed.

Lemma roll_loop_draws m rest drawn acc :
  m ≠ 0 →
  roll_loop (length drawn) m (rest ++ reverse drawn) acc
  = Ok (acc ++ map (λ v, v mod m + 1) drawn, rest).
Proof.
  intros Hm. revert acc. induction drawn as [|v drawn IH]; intros acc; simpl.
  - by rewrite !app_nil_r.
  - rewrite reverse_cons, app_assoc, pop_snoc.
    destruct (Z.eqb_spec m 0); [done |].
    rewrite IH. by rewrite <- app_assoc.
Qed.

Lemma roll_loop_exhausted cnt m randoms acc :
  m ≠ 0 → (length randoms < cnt)%nat →
  roll_loop cnt m randoms acc = Raise OutOfRandomError.
Proof.
  intros Hm. revert randoms acc.
  induction cnt as [|cnt IH]; intros randoms acc Hlen; [lia |]. simpl.
  destruct randoms as [|x l _] using rev_ind; [done |].
  rewrite pop_snoc. destruct (Z.eqb_spec m 0); [done |].
  apply IH. rewrite length_app in Hlen. simpl in Hlen. lia.
Qed.

(** [roll_total] is [roll] with [combine=True]. *)
Lemma roll_total_roll randoms dice :
  roll randoms dice true
  = (λ '(total, randoms'), (Combined total, randoms')) <$> roll_total randoms dice.
Proof.
  unfold roll, roll_total.
  destruct (parse_dice dice) as [[[cnt dice_type] plus]|]; [simpl | done].
  by destruct (roll_loop _ _ _ _) as [[result r]|].
Qed.

Lemma roll_total_draws (n m : N) (k : option N) (rest drawn : list Z) :
  (0 < m)%N → length drawn = N.to_nat n →
  roll_total (rest ++ reverse drawn) (dice_expr n m k)
  = Ok (sum (map (λ v, v mod Z.of_N m + 1) drawn) + from_option Z.of_N 0 k, rest).
Proof.
  intros Hm Hlen. unfold roll_total. rewrite parse_dice_expr. simpl.
  rewrite <- Z_N_nat, N2Z.id, <- Hlen, roll_loop_draws by lia. reflexivity.
Qed.

(** C5: on a dice expression [NdM] or [NdM+K] with a die of at least one
    side, [roll] with [combine=True] pops [N] values off the tail of the
    randoms and returns the sum of [(v mod M) + 1] over them, plus [K];
    it raises [OutOfRandomError] when fewer than [N] randoms remain; and
    [roll([1, 7, 3], '2d6')] is 6. *)
Theorem roll_combined_spec (n m : N) (k : option N) (sides : (0 < m)%N) :
  (∀ rest drawn : list Z,
      length drawn = N.to_nat n →
      roll (rest ++ reverse drawn) (dice_expr n m k) true
      = Ok (Combined (sum (map (λ v, v mod Z.of_N m + 1) drawn)
                      + from_option Z.of_N 0 k), rest))
  ∧ (∀ randoms : list Z,
      (length randoms < N.to_nat n)%nat →
      roll randoms (dice_expr n m k) true = Raise OutOfRandomError)
  ∧ roll [1; 7; 3] "2d6" true = Ok (Combined 6, [1]).
Proof.
  assert (Hm : Z.of_N m ≠ 0) by lia.
  split; [| split; [| reflexivity]].
  - intros rest drawn Hlen. unfold roll. rewrite parse_dice_expr. simpl.
    rewrite <- Z_N_nat, N2Z.id, <- Hlen, roll_loop_draws by done. reflexivity.
  - intros randoms Hlen. unfold roll. rewrite parse_dice_expr. simpl.
    rewrite <- Z_N_nat, N2Z.id, roll_loop_exhausted by done. reflexivity.
Qed.

Lemma roll_combined_spec_witness :
  roll ([1] ++ reverse [3; 7]) (dice_expr 2 6 (Some 1%N)) true
  = Ok (Combined (sum (map (λ v, v mod 6 + 1) [3; 7]) + 1), [1])
  ∧ roll [5] (dice_expr 2 6 (Some 1%N)) true = Raise OutOfRandomError.
Proof.
  destruct (roll_combined_spec 2 6 (Some 1%N) eq_refl) as (Hdraw & Hout & _).
  split.
  - apply (Hdraw [1] [3; 7]). reflexivity.
  - apply Hout. simpl. lia.
Defined.

(** ** Move.get_randoms *)

Lemma roll_loop_nil cnt m acc :
  roll_loop (S cnt) m [] acc = Raise OutOfRandomError.
Proof. reflexivity. Qed.

(** C10: a move that is not confirmed (no containing block, or a block
    without hash, or no id of its own) has the empty list as its randoms,
    and every roll of at least one die against it raises
    [OutOfRandomError] at the first draw. *)
Theorem get_randoms_unconfirmed (self : Move.t) :
  Move.block self = None
  ∨ (∃ b, Move.block self = Some b ∧ Block.hash b = None)
  ∨ Move.id self = None →
  get_randoms self = []
  ∧ ∀ (n m : N) (k : option N) (combine : bool),
      (0 < n)%N →
      roll (get_randoms self) (dice_expr n m k) combine = Raise OutOfRandomError.
Proof.
  intros Hun.
  assert (Hnil : get_randoms self = []).
  { unfold get_randoms. destruct Hun as [-> | [(b & -> & ->) | ->]]; [done | done |].
    destruct (Move.block self); [| done]. by rewrite andb_false_r. }
  split; [done |]. intros n m k combine Hn. rewrite Hnil.
  unfold roll. rewrite parse_dice_expr. simpl.
  rewrite <- Z_N_nat, N2Z.id.
  destruct (N.to_nat n) as [|cnt] eqn:E; [lia |]. by rewrite roll_loop_nil.
Qed.

Lemma get_randoms_unconfirmed_witness :
  get_randoms (Move.mk None None None "alice" None "sleep" ∅ 0 0) = []
  ∧ roll (get_randoms (Move.mk None None None "alice" None "sleep" ∅ 0 0))
         (dice_expr 2 6 None) true = Raise OutOfRandomError.
Proof.
  destruct (get_randoms_unconfirmed (Move.mk None None None "alice" None "sleep" ∅ 0 0))
    as [Hnil Hroll].
  - left. reflexivity.
  - split; [exact Hnil | apply Hroll; reflexivity].
Defined.

(** A confirmed move whose id is the hash of its block: every XOR is 0,
    the first [difficulty / 4] values are dropped and every die shows 1. *)
Example get_randoms_same_hash :
  let block := Block.mk 7 (Some "abcd") None "alice" "" "0" 5 0 in
  let self := Move.mk (Some "abcd") (Some 7) (Some block) "alice" None
                      "hack_and_slash" ∅ 0 0 in
  get_randoms self = [0; 0; 0]
  ∧ roll (get_randoms self) "2d6" true = Ok (Combined 2, [0]).
Proof. split; reflexivity. Qed.

(** ** LevelUp.execute *)

Lemma LevelUp_execute_ability (self : Move.t) (avatar : Avatar.t)
    (new_status : string) :
  Avatar.lv avatar + 7 ≤ Avatar.xp avatar →
  Move.details self !! "new_status" = Some new_status →
  new_status ∈ abilities →
  ∃ avatar',
    LevelUp_execute self avatar
    = Ok (avatar', Result.mk "level_up" (Some "success") None None None)
    ∧ Avatar.xp avatar' = Avatar.xp avatar - (Avatar.lv avatar + 7)
    ∧ Avatar.lv avatar' = Avatar.lv avatar + 1
    ∧ (∀ a, a ∈ abilities →
         ability avatar' a
         = (λ z, z + if bool_decide (a = new_status) then 1 else 0) <$> ability avatar a)
    ∧ Avatar.hp avatar'
      = Avatar.hp avatar + (if bool_decide (new_status = "constitution") then 1 else 0)
    ∧ Avatar.items avatar' = Avatar.items avatar
    ∧ Avatar.cls avatar' = Avatar.cls avatar
    ∧ Avatar.user avatar' = Avatar.user avatar
    ∧ Avatar.name avatar' = Avatar.name avatar
    ∧ Avatar.gravatar_hash avatar' = Avatar.gravatar_hash avatar.
Proof.
  intros Hxp Hd Hin. unfold LevelUp_execute.
  destruct (Z.ltb_spec (Avatar.xp avatar) (Avatar.lv avatar + 7)); [lia |].
  unfold getitem. rewrite Hd. unfold abilities in *.
  repeat (apply elem_of_cons in Hin as [-> | Hin]);
    [.. | by apply elem_of_nil in Hin];
    (eexists; split; [reflexivity |]; split_and!;
     try reflexivity; try (simpl; lia);
     intros a Ha; repeat (apply elem_of_cons in Ha as [-> | Ha]);
     [.. | by apply elem_of_nil in Ha];
     vm_compute;
     first [reflexivity | symmetry; apply (f_equal Some), Z.add_0_r]).
Qed.

(** C6: with [xp >= lv + 7], [level_up] deducts [lv + 7] from [xp], adds
    one to [lv] and one to the ability named by [details.new_status], and
    one to [hp] exactly when that ability is [constitution]; with
    [xp < lv + 7] it returns the [failed] result with the not-enough-xp
    message and the avatar as it was.  A novice with [xp = 8], [lv = 1] and
    [new_status = 'strength'] ends at [xp = 0], [lv = 2], one more
    strength and the same [hp]. *)
Theorem LevelUp_execute_spec (self : Move.t) (avatar : Avatar.t) :
  (∀ new_status,
      Avatar.lv avatar + 7 ≤ Avatar.xp avatar →
      Move.details self !! "new_status" = Some new_status →
      new_status ∈ abilities →
      ∃ avatar',
        LevelUp_execute self avatar
        = Ok (avatar', Result.mk "level_up" (Some "success") None None None)
        ∧ Avatar.xp avatar' = Avatar.xp avatar - (Avatar.lv avatar + 7)
        ∧ Avatar.lv avatar' = Avatar.lv avatar + 1
        ∧ (∀ a, a ∈ abilities →
             ability avatar' a
             = (λ z, z + if bool_decide (a = new_status) then 1 else 0)
                 <$> ability avatar a)
        ∧ Avatar.hp avatar'
          = Avatar.hp avatar
            + (if bool_decide (new_status = "constitution") then 1 else 0)
        ∧ Avatar.items avatar' = Avatar.items avatar)
  ∧ (Avatar.xp avatar < Avatar.lv avatar + 7 →
      LevelUp_execute self avatar
      = Ok (avatar, Result.mk "level_up" (Some "failed")
                      (Some "You don't have enough xp.") None None))
  ∧ (Avatar.cls avatar = Avatar.Novice →
     Avatar.xp avatar = 8 → Avatar.lv avatar = 1 →
     Move.details self !! "new_status" = Some "strength" →
      ∃ avatar',
        LevelUp_execute self avatar
        = Ok (avatar', Result.mk "level_up" (Some "success") None None None)
        ∧ Avatar.xp avatar' = 0 ∧ Avatar.lv avatar' = 2
        ∧ Avatar.strength avatar' = Avatar.strength avatar + 1
        ∧ Avatar.hp avatar' = Avatar.hp avatar).
Proof.
  split_and!.
  - intros new_status Hxp Hd Hin.
    destruct (LevelUp_execute_ability self avatar new_status Hxp Hd Hin)
      as (avatar' & ? & ? & ? & ? & ? & ? & _).
    exists avatar'. by split_and!.
  - intros Hxp. unfold LevelUp_execute.
    by destruct (Z.ltb_spec (Avatar.xp avatar) (Avatar.lv avatar + 7)); [| lia].
  - intros _ Hxp Hlv Hd.
    destruct (LevelUp_execute_ability self avatar "strength") as
      (avatar' & Hex & Hxp' & Hlv' & Hab & Hhp & _); [lia | done | |].
    { unfold abilities. apply elem_of_cons. by left. }
    exists avatar'. split_and!; [done | lia | lia | | simpl in Hhp; lia].
    assert (Hin : "strength" ∈ abilities) by (apply elem_of_cons; by left).
    specialize (Hab "strength" Hin). unfold ability in Hab.
    rewrite !(bool_decide_eq_true_2 _ Hin) in Hab.
    change (Avatar.getattr avatar' "strength")
      with (Ok (VInt (Avatar.strength avatar'))) in Hab.
    change (Avatar.getattr avatar "strength")
      with (Ok (VInt (Avatar.strength avatar))) in Hab.
    by injection Hab.
Qed.

Lemma LevelUp_execute_spec_witness :
  let novice := Avatar.mk Avatar.Novice "alice" "alice" "HASH"
                          13 12 9 10 11 8 15 8 1 {[ "GOLD" := 8 ]} in
  let self := Move.mk None None None "alice" None "level_up"
                      {[ "new_status" := "strength" ]} 0 0 in
  ∃ avatar',
    LevelUp_execute self novice
    = Ok (avatar', Result.mk "level_up" (Some "success") None None None)
    ∧ Avatar.xp avatar' = 0 ∧ Avatar.lv avatar' = 2
    ∧ Avatar.strength avatar' = Avatar.strength novice + 1
    ∧ Avatar.hp avatar' = Avatar.hp novice.
Proof.
  intros novice self.
  apply (LevelUp_execute_spec self novice); reflexivity.
Defined.

(** ** Send.execute *)



(** ** Combine.execute *)




Section Combine.
Variables (self : Move.t) (i1 i2 i3 : string).
Hypothesis item1 : Move.details self !! "item1" = Some i1.
Hypothesis item2 : Move.details self !! "item2" = Some i2.
Hypothesis item3 : Move.details self !! "item3" = Some i3.



End Combine.




(** ** HackAndSlash.execute *)

Lemma pop_length {A} (l l' : list A) x :
  pop l = Some (x, l') → length l = S (length l').
Proof.
  destruct l as [|y l _] using rev_ind; [done |].
  rewrite pop_snoc. intros [= <- <-]. rewrite length_app. simpl. lia.
Qed.

Lemma roll_loop_length cnt m randoms acc result randoms' :
  roll_loop cnt m randoms acc = Ok (result, randoms') →
  length randoms = (length randoms' + cnt)%nat.
Proof.
  revert randoms acc. induction cnt as [|cnt IH]; intros randoms acc; simpl.
  - intros [= _ ->]. lia.
  - destruct (pop randoms) as [[v r]|] eqn:Hpop; [| done].
    destruct (m =? 0); [done |]. intros Hloop.
    apply IH in Hloop. apply pop_length in Hpop. lia.
Qed.

Lemma roll_total_length randoms dice v randoms' :
  roll_total randoms dice = Ok (v, randoms') →
  ∃ cnt dice_type plus,
    parse_dice dice = Ok (cnt, dice_type, plus)
    ∧ length randoms = (length randoms' + Z.to_nat cnt)%nat.
Proof.
  unfold roll_total.
  destruct (parse_dice dice) as [[[cnt dice_type] plus]|]; [simpl | done].
  destruct (roll_loop _ _ _ _) as [[result r]|] eqn:Hloop; [simpl | done].
  intros [= _ <-]. apply roll_loop_length in Hloop. eauto.
Qed.

Section Shrinking.
Lemma shrinking_ret {A} (a : A) : shrinking (mret a).
Proof. intros s s' x [= <- _]. done. Qed.

Lemma shrinking_lift {A} (r : res A) : shrinking (lift r).
Proof. intros s s' x [= <- _]. done. Qed.

Lemma shrinking_bind {A B} (m : M A) (f : A → M B) :
  shrinking m → (∀ a, shrinking (f a)) → shrinking (m ≫= f).
Proof.
  intros Hm Hf s s' x. unfold mbind, M_bind. simpl.
  destruct (runM m s) as [s1 [a|e]] eqn:E.
  - intros Hrun. apply Hm in E. apply Hf in Hrun. lia.
  - intros [= <- _]. by apply Hm in E.
Qed.

Lemma shrinking_rollM dice : shrinking (rollM dice).
Proof.
  intros s s' x. unfold rollM. simpl.
  destruct (roll_total _ _) as [[v r]|] eqn:E.
  - intros [= <- _]. simpl. apply roll_total_length in E as (? & ? & ? & _ & ->). lia.
  - intros [= <- _]. done.
Qed.

Lemma shrinking_get_avatar : shrinking get_avatar.
Proof. intros s s' x [= <- _]. done. Qed.
Lemma shrinking_get_monster : shrinking get_monster.
Proof. intros s s' x [= <- _]. done. Qed.
Lemma shrinking_get_status : shrinking get_status.
Proof. intros s s' x [= <- _]. done. Qed.
Lemma shrinking_set_avatar a : shrinking (set_avatar a).
Proof. intros s s' x [= <- _]. done. Qed.
Lemma shrinking_set_monster m : shrinking (set_monster m).
Proof. intros s s' x [= <- _]. done. Qed.
Lemma shrinking_append e : shrinking (append e).
Proof. intros s s' x [= <- _]. done. Qed.
End Shrinking.

Create HintDb shrink.
#[local] Hint Resolve shrinking_ret shrinking_lift shrinking_rollM
  shrinking_get_avatar shrinking_get_monster shrinking_get_status
  shrinking_set_avatar shrinking_set_monster shrinking_append : shrink.

Ltac shrink :=
  repeat first
    [ apply shrinking_bind; [| intros ?]
    | solve [auto with shrink]
    | progress cbv zeta
    | case_match ].

Lemma shrinking_bandage : shrinking bandage.
Proof. unfold bandage. shrink. Qed.

Lemma shrinking_outcome : shrinking outcome.
Proof. unfold outcome. shrink. Qed.

Lemma bind_run {A B} (m : M A) (f : A → M B) s :
  runM (m ≫= f) s
  = match runM m s with
    | (s', Ok a) => runM (f a) s'
    | (s', Raise e) => (s', Raise e)
    end.
Proof. reflexivity. Qed.

Lemma rollM_2d6 s s' v :
  runM (rollM "2d6") s = (s', Ok v) →
  length (Battle.randoms s) = (length (Battle.randoms s') + 2)%nat.
Proof.
  unfold rollM. simpl.
  destruct (roll_total (Battle.randoms s) "2d6") as [[v' r]|] eqn:E; [| done].
  intros [= <- _]. simpl.
  apply roll_total_length in E as (cnt & dt & plus & Hparse & Hlen).
  injection Hparse as <- <- <-. exact Hlen.
Qed.

(** A round that does not raise has drawn the two dice of the attack. *)
Lemma exchange_draws s s' x :
  runM exchange s = (s', Ok x) →
  (length (Battle.randoms s') + 2 ≤ length (Battle.randoms s))%nat.
Proof.
  unfold exchange. rewrite bind_run.
  destruct (runM (rollM "2d6") s) as [s1 [v|e]] eqn:E; [| done].
  apply rollM_2d6 in E.
  match goal with |- runM ?m ?s1 = _ → _ => assert (Hm : shrinking m) end.
  { shrink. }
  intros Hrun. apply Hm in Hrun. lia.
Qed.

Lemma round_draws s s' x :
  runM round s = (s', Ok x) →
  (length (Battle.randoms s') < length (Battle.randoms s))%nat.
Proof.
  unfold round. rewrite bind_run.
  destruct (runM bandage s) as [s1 [[]|e]] eqn:E1; [| done].
  apply shrinking_bandage in E1. rewrite bind_run.
  destruct (runM exchange s1) as [s2 [[]|e]] eqn:E2; [| done].
  apply exchange_draws in E2. intros E3. apply shrinking_outcome in E3. lia.
Qed.

(** The loop comes to an end: with more fuel than randoms it returns. *)
Lemma battle_total fuel s :
  (length (Battle.randoms s) < fuel)%nat → is_Some (battle fuel s).
Proof.
  revert s. induction fuel as [|fuel IH]; intros s Hlen; [lia |].
  cbn [battle].
  destruct (runM round s) as [s' [[r|]|e]] eqn:E.
  - by eexists.
  - apply IH. apply round_draws in E. lia.
  - destruct e; by eexists.
Qed.

(** [OutOfRandomError] does not leave the loop. *)
Lemma battle_catches fuel s : battle fuel s ≠ Some (Raise OutOfRandomError).
Proof.
  revert s. induction fuel as [|fuel IH]; intros s; [done |].
  cbn [battle].
  destruct (runM round s) as [s' [[r|]|e]] eqn:E; [done | apply IH |].
  destruct e; done.
Qed.

Lemma load_monster_no_exhaustion row : load_monster row ≠ Raise OutOfRandomError.
Proof.
  unfold load_monster, getitem, int_or_ValueError.
  repeat (case_match; simpl; try done).
Qed.

(** [execute] returns, and what it raises is never [OutOfRandomError]. *)
Lemma HackAndSlash_run_total monsters avatar randoms :
  is_Some (HackAndSlash_run monsters avatar randoms)
  ∧ HackAndSlash_run monsters avatar randoms ≠ Some (Raise OutOfRandomError).
Proof.
  unfold HackAndSlash_run.
  destruct (pop randoms) as [[v r]|]; [| by split; [eexists |]].
  destruct (_ =? 0); [by split; [eexists |] |].
  destruct (monsters !! _) as [row|]; [| by split; [eexists |]].
  pose proof (load_monster_no_exhaustion row) as Hload.
  destruct (load_monster row) as [monster|e]; [| split; [by eexists | congruence]].
  split; [apply battle_total; simpl; lia | apply battle_catches].
Qed.

(** Inside the loop nothing raises [IndexError]: [roll] turns the one of
    [pop] into [OutOfRandomError]. *)
Lemma roll_loop_raises cnt m randoms acc e :
  roll_loop cnt m randoms acc = Raise e →
  e = OutOfRandomError ∨ e = ZeroDivisionError.
Proof.
  revert randoms acc. induction cnt as [|cnt IH]; intros randoms acc; simpl; [done |].
  destruct (pop randoms) as [[v r]|]; [| intros [= <-]; by left].
  destruct (m =? 0); [intros [= <-]; by right | apply IH].
Qed.

Lemma parse_dice_raises dice e : parse_dice dice = Raise e → e = ValueError.
Proof.
  unfold parse_dice, int_or_ValueError.
  repeat (case_match; simpl; try done); congruence.
Qed.

Lemma roll_total_raises randoms dice e :
  roll_total randoms dice = Raise e →
  e = ValueError ∨ e = OutOfRandomError ∨ e = ZeroDivisionError.
Proof.
  unfold roll_total.
  destruct (parse_dice dice) as [[[cnt dt] plus]|e'] eqn:Ep; simpl.
  - destruct (roll_loop _ _ _ _) as [[result r]|e'] eqn:El; simpl; [done |].
    intros [= <-]. right. by apply roll_loop_raises in El.
  - intros [= <-]. left. by apply parse_dice_raises in Ep.
Qed.

Section Spares.
Variable e : exn.

Lemma spares_ret {A} (a : A) : spares e (mret a).
Proof. intros s s'. done. Qed.

Lemma spares_lift {A} (r : res A) : r ≠ Raise e → spares e (lift r).
Proof. intros Hr s s' [= _ ->]. done. Qed.

Lemma spares_bind {A B} (m : M A) (f : A → M B) :
  spares e m → (∀ a, spares e (f a)) → spares e (m ≫= f).
Proof.
  intros Hm Hf s s'. rewrite bind_run.
  destruct (runM m s) as [s1 [a|e']] eqn:E; [apply Hf |].
  intros [= -> ->]. by apply Hm in E.
Qed.

Lemma spares_get_avatar : spares e get_avatar.
Proof. intros s s'. done. Qed.
Lemma spares_get_monster : spares e get_monster.
Proof. intros s s'. done. Qed.
Lemma spares_get_status : spares e get_status.
Proof. intros s s'. done. Qed.
Lemma spares_set_avatar a : spares e (set_avatar a).
Proof. intros s s'. done. Qed.
Lemma spares_set_monster m : spares e (set_monster m).
Proof. intros s s'. done. Qed.
Lemma spares_append x : spares e (append x).
Proof. intros s s'. done. Qed.
End Spares.

Lemma spares_rollM dice : spares IndexError (rollM dice).
Proof.
  intros s s'. unfold rollM. simpl.
  destruct (roll_total _ _) as [[v r]|e] eqn:E; [done |].
  intros [= _ ->]. apply roll_total_raises in E as [? | [? | ?]]; done.
Qed.

#[local] Hint Resolve spares_ret spares_rollM spares_get_avatar
  spares_get_monster spares_get_status spares_set_avatar spares_set_monster
  spares_append : shrink.

Ltac spare :=
  repeat first
    [ apply spares_bind; [| intros ?]
    | solve [auto with shrink]
    | apply spares_lift
    | progress cbv zeta
    | case_match ].

Lemma round_spares_IndexError : spares IndexError round.
Proof.
  unfold round, bandage, exchange, outcome. spare.
  all: unfold Avatar.max_hp, Avatar.take_item, Avatar.modifier, Avatar.damage,
         Avatar.getattr, getitem; simpl; repeat (case_match; simpl; try done).
Qed.

Lemma battle_spares_IndexError fuel s : battle fuel s ≠ Some (Raise IndexError).
Proof.
  revert s. induction fuel as [|fuel IH]; intros s; [done |].
  cbn [battle].
  destruct (runM round s) as [s' [[r|]|e]] eqn:E; [done | apply IH |].
  destruct e; try done. by apply round_spares_IndexError in E.
Qed.

(** On a stream that is not empty [execute] returns, and what it raises is
    neither [IndexError] nor [OutOfRandomError]. *)
Lemma HackAndSlash_run_nonempty monsters avatar rest v :
  ∃ r, HackAndSlash_run monsters avatar (rest ++ [v]) = Some r
       ∧ r ≠ Raise IndexError ∧ r ≠ Raise OutOfRandomError.
Proof.
  destruct (HackAndSlash_run_total monsters avatar (rest ++ [v])) as [[r Hr] Hno].
  exists r. split_and!; [done | | congruence].
  intros ->. revert Hr. unfold HackAndSlash_run. rewrite pop_snoc.
  destruct (Z.eqb_spec (Z.of_nat (length monsters)) 0) as [|Hlen]; [done |].
  destruct (monsters !! _) as [row|] eqn:Hrow.
  - destruct (load_monster row) as [monster|e] eqn:Hload.
    + apply battle_spares_IndexError.
    + intros [= ->]. revert Hload. unfold load_monster, getitem, int_or_ValueError.
      repeat (case_match; simpl; try done).
  - apply lookup_ge_None in Hrow.
    pose proof (Z.mod_pos_bound v (Z.of_nat (length monsters))). lia.
Qed.

(** C3 at the empty stream: the draw that picks the monster is outside the
    [try], and [execute] raises [IndexError] for every avatar and every
    monster table; so it does on every move that is not confirmed. *)
Theorem HackAndSlash_empty_stream (monsters : list (gmap string string))
    (avatar : Avatar.t) :
  HackAndSlash_run monsters avatar [] = Some (Raise IndexError)
  ∧ ∀ self, Move.block self = None →
      HackAndSlash_execute monsters self avatar = Some (Raise IndexError).
Proof.
  split; [reflexivity |]. intros self Hblock.
  unfold HackAndSlash_execute, get_randoms. by rewrite Hblock.
Qed.

Lemma HackAndSlash_empty_stream_witness :
  HackAndSlash_execute [] (Move.mk None None None "alice" None "hack_and_slash" ∅ 0 0)
    (Avatar.mk Avatar.Novice "alice" "alice" "HASH" 13 12 9 10 11 8 15 0 1 ∅)
  = Some (Raise IndexError).
Proof.
  apply (HackAndSlash_empty_stream [] _). reflexivity.
Defined.

(** ** User.create_block *)

(** [timedelta / int] rounds to the nearest microsecond, halves to even. *)
Example divide_and_round_halves :
  divide_and_round 7 2 = 4 ∧ divide_and_round 5 2 = 2
  ∧ divide_and_round (-7) 2 = -4 ∧ divide_and_round 10000001 2 = 5000000
  ∧ divide_and_round 10 3 = 3 ∧ divide_and_round 11 3 = 4.
Proof. repeat split. Qed.

(** Against an even bound [c] of microseconds the rounded average is at
    most [c] exactly when the exact average is at most [c] and a half: the
    5 and 15 seconds of [create_block] are met up to half a microsecond. *)
Lemma divide_and_round_le_even (a n c : Z) :
  0 < n → c mod 2 = 0 →
  divide_and_round a n ≤ c ↔ 2 * a ≤ (2 * c + 1) * n.
Proof.
  intros Hn Hc. unfold divide_and_round.
  pose proof (Z.div_mod a n ltac:(lia)) as Ha.
  pose proof (Z.mod_pos_bound a n Hn) as Hr.
  pose proof (Z.div_mod (a / n) 2 ltac:(lia)) as Hq.
  pose proof (Z.mod_pos_bound (a / n) 2 ltac:(lia)) as Hq2.
  pose proof (Z.div_mod c 2 ltac:(lia)) as Hc2.
  set (q := a / n) in *. set (r := a mod n) in *.
  destruct (Z.ltb_spec 0 n); [| lia].
  destruct (Z.ltb_spec n (2 * r)); simpl.
  - split; intros; nia.
  - destruct (Z.eqb_spec (2 * r) n); simpl.
    + destruct (Z.eqb_spec (q mod 2) 1); split; intros; nia.
    + split; intros; nia.
Qed.

Lemma max_key_spec (keys : list Z) (h : Z) :
  h ∈ keys → (∀ k, k ∈ keys → k ≤ h) → max_key keys = Some h.
Proof.
  induction keys as [|k keys IH]; intros Hin Hmax; [by apply elem_of_nil in Hin |].
  simpl. destruct (decide (h ∈ keys)) as [Hh|Hh].
  - rewrite IH; [| done | intros k' Hk'; apply Hmax; by apply elem_of_cons; right].
    f_equal. assert (k ≤ h) by (apply Hmax, elem_of_cons; by left). lia.
  - apply elem_of_cons in Hin as [-> | Hin]; [| done].
    destruct (max_key keys) as [k'|] eqn:E; [| done]. f_equal.
    assert (Hk' : k' ∈ keys).
    { clear -E. revert k' E. induction keys as [|a keys IH]; intros k' E; [done |].
      simpl in E. destruct (max_key keys) as [m|] eqn:Em.
      - injection E as <-. destruct (Z.max_spec a m) as [[_ ->] | [_ ->]].
        + apply elem_of_cons. right. by apply IH.
        + apply elem_of_cons. by left.
      - injection E as <-. apply elem_of_cons. by left. }
    assert (k' ≤ k) by (apply Hmax, elem_of_cons; by right). lia.
Qed.

Lemma last_block_spec (blocks : gmap Z Block.t) (h : Z) (prev : Block.t) :
  blocks !! h = Some prev →
  (∀ k, is_Some (blocks !! k) → k ≤ h) →
  last_block blocks = Some prev.
Proof.
  intros Hh Hmax. unfold last_block.
  rewrite (max_key_spec _ h); [done | |].
  - apply elem_of_elements, elem_of_dom. by eexists.
  - intros k Hk%elem_of_elements%elem_of_dom. by apply Hmax.
Qed.

Lemma last_block_empty : last_block (∅ : gmap Z Block.t) = None.
Proof. reflexivity. Qed.

Section CreateBlock.
Context `{Primitives}.
Variables (self : User.t) (now : Z) (st : Store.t)
          (moves : list Move.t) (commit : bool).
Hypothesis moves_valid : forallb Move_valid moves = true.

(** The block built on a tip [prev] at height [h ≥ 1]. *)
Lemma User_create_block_next (h : Z) (prev b10 : Block.t) :
  Store.blocks st !! h = Some prev → Block.id prev = h →
  (∀ k, is_Some (Store.blocks st !! k) → k ≤ h) →
  1 ≤ h →
  Store.blocks st !! Z.max 1 (h - 9) = Some b10 →
  Block.id b10 = Z.max 1 (h - 9) →
  ∃ block st',
    User_create_block self now st moves commit = Ok (Some block, st')
    ∧ Block.id block = h + 1
    ∧ Block.prev_hash block = Block.hash prev
    ∧ Block.created_at block = now
    ∧ Block.difficulty block
      = Block.difficulty prev
        + difficulty_change
            (divide_and_round (now - Block.created_at b10)
                              (h + 1 - Block.id b10)).
Proof using moves_valid.
  intros Hprev Hid Hmax Hh Hb10 Hid10. unfold User_create_block.
  rewrite moves_valid. cbn [negb].
  rewrite (last_block_spec _ h prev Hprev Hmax). rewrite Hid.
  replace (h + 1 - 10) with (h - 9) by lia. rewrite Hb10.
  unfold timedelta_div. rewrite Hid10.
  destruct (Z.eqb_spec (h + 1 - Z.max 1 (h - 9)) 0) as [Hz|_]; [lia |].
  cbn [mbind res_bind].
  destruct (Store.blocks st !! (h + 1)) as [b|] eqn:Hnext.
  { assert (h + 1 ≤ h) by (apply Hmax; by eexists). lia. }
  eexists _, _. split; [reflexivity |]. cbn [Block.id Block.prev_hash
    Block.created_at Block.difficulty]. split_and!; try done.
  unfold difficulty_change.
  destruct (_ <=? seconds 5); [done |]. destruct (seconds 15 <? _); lia.
Qed.

(** The genesis block. *)
Lemma User_create_block_genesis :
  Store.blocks st = ∅ →
  ∃ block st',
    User_create_block self now st moves commit = Ok (Some block, st')
    ∧ Block.id block = 1
    ∧ Block.prev_hash block = None
    ∧ Block.difficulty block = 0.
Proof using moves_valid.
  intros Hempty. unfold User_create_block.
  rewrite moves_valid, Hempty, last_block_empty. cbn [negb mbind res_bind].
  rewrite lookup_empty. eexists _, _. by split.
Qed.
End CreateBlock.



(** A tip of difficulty 0 and a slow chain: the next difficulty is -1. *)
Lemma create_block_difficulty_counterexample :
  ¬ (∀ (P : Primitives) (self : User.t) (now : Z) (st : Store.t)
       (moves : list Move.t) (commit : bool) (block : Block.t) (st' : Store.t),
       User_create_block self now st moves commit = Ok (Some block, st') →
       0 ≤ Block.difficulty block).
Proof.
  intros Hclaim.
  pose (genesis := Block.mk 1 (Some "10") None "alice" "" "0" 0 0).
  pose (st := Store.mk {[ 1 := genesis ]} ∅).
  pose (block := Block.mk 2 (Some "20") (Some "10") "alice" "" "0" (-1) (seconds 20)).
  specialize (Hclaim toy (User.mk "alice") (seconds 20) st [] true block
                (Store.mk (<[ 2 := block ]> {[ 1 := genesis ]}) ∅)).
  assert (Hrun : @User_create_block toy (User.mk "alice") (seconds 20) st [] true
                 = Ok (Some block, Store.mk (<[ 2 := block ]> {[ 1 := genesis ]}) ∅))
    by (vm_compute; reflexivity).
  specialize (Hclaim Hrun). simpl in Hclaim. lia.
Qed.

(** C9, as the code has it: the block built on a tip of difficulty [d] has
    a difficulty of at least [d - 1]; it is not negative when [d] is not
    and either [d] is at least 1 or the average time between blocks is at
    most 15 seconds; the genesis block has difficulty 0. *)
Theorem create_block_difficulty_lower_bound `{Primitives}
    (self : User.t) (now : Z) (st : Store.t) (moves : list Move.t)
    (commit : bool) :
  forallb Move_valid moves = true →
  (∀ (h : Z) (prev b10 : Block.t),
      Store.blocks st !! h = Some prev → Block.id prev = h →
      (∀ k, is_Some (Store.blocks st !! k) → k ≤ h) →
      1 ≤ h →
      Store.blocks st !! Z.max 1 (h - 9) = Some b10 →
      Block.id b10 = Z.max 1 (h - 9) →
      let avg_dt := divide_and_round (now - Block.created_at b10)
                                     (h + 1 - Block.id b10) in
      ∃ block st',
        User_create_block self now st moves commit = Ok (Some block, st')
        ∧ Block.difficulty prev - 1 ≤ Block.difficulty block
        ∧ (0 ≤ Block.difficulty prev →
           1 ≤ Block.difficulty prev ∨ avg_dt ≤ seconds 15 →
           0 ≤ Block.difficulty block))
  ∧ (Store.blocks st = ∅ →
      ∃ block st',
        User_create_block self now st moves commit = Ok (Some block, st')
        ∧ Block.difficulty block = 0).
Proof.
  intros Hvalid. split.
  - intros h prev b10 Hprev Hid Hmax Hh Hb10 Hid10 avg_dt.
    destruct (User_create_block_next self now st moves commit Hvalid
                h prev b10 Hprev Hid Hmax Hh Hb10 Hid10)
      as (block & st' & Hrun & _ & _ & _ & Hdiff).
    exists block, st'. fold avg_dt in Hdiff. unfold difficulty_change in Hdiff.
    split_and!; [done | |]; [| intros Hd Hor];
      destruct (Z.leb_spec avg_dt (seconds 5));
      destruct (Z.ltb_spec (seconds 15) avg_dt); unfold seconds in *; lia.
  - intros Hempty.
    destruct (User_create_block_genesis self now st moves commit Hvalid Hempty)
      as (block & st' & Hrun & _ & _ & Hdiff).
    by exists block, st'.
Qed.

Lemma create_block_difficulty_lower_bound_witness :
  let genesis := Block.mk 1 (Some "10") None "alice" "" "0" 0 0 in
  let st := Store.mk {[ 1 := genesis ]} ∅ in
  ∃ block st',
    @User_create_block toy (User.mk "alice") (seconds 10) st [] true
    = Ok (Some block, st')
    ∧ 0 ≤ Block.difficulty block.
Proof.
  intros genesis st.
  destruct (@create_block_difficulty_lower_bound toy (User.mk "alice") (seconds 10)
              st [] true eq_refl) as [Hnext _].
  destruct (Hnext 1 genesis genesis) as (block & st' & Hrun & _ & Hpos).
  - reflexivity.
  - reflexivity.
  - intros k [b Hk]. simpl in Hk. apply lookup_singleton_Some in Hk as [<- _]. lia.
  - lia.
  - reflexivity.
  - reflexivity.
  - exists block, st'. split; [done |]. apply Hpos; [simpl; lia |].
    right. vm_compute. discriminate.
Defined.

(** ** Block.sync: the branch-point probe *)

(** The scenario of two chains that part after height 2. *)
Example branch_point_scenario :
  branch_point (chain_of ["g"; "A"; "B"; "C"])
               (node_of ["g"; "A"; "B2"; "C2"; "D2"]) = Ok 2.
Proof. vm_compute. reflexivity. Qed.

(** C1 on two chains that share the genesis block only, and on two chains
    that share six blocks: the probe answers 0 where block 1 has the same
    hash on both sides, and 5 where block 6 has. *)
Theorem branch_point_not_greatest :
  (branch_point (chain_of ["g"; "A"; "B"; "C"])
                (node_of ["g"; "A2"; "B2"; "C2"; "D2"]) = Ok 0
   ∧ same_hash (chain_of ["g"; "A"; "B"; "C"])
               (node_of ["g"; "A2"; "B2"; "C2"; "D2"]) 1 = Ok true)
  ∧ (branch_point
       (chain_of ["b1"; "b2"; "b3"; "b4"; "b5"; "b6"; "b7"; "b8"; "b9"; "b10"])
       (node_of ["b1"; "b2"; "b3"; "b4"; "b5"; "b6"; "c7"; "c8"; "c9"; "c10"; "c11"])
     = Ok 5
     ∧ same_hash
         (chain_of ["b1"; "b2"; "b3"; "b4"; "b5"; "b6"; "b7"; "b8"; "b9"; "b10"])
         (node_of ["b1"; "b2"; "b3"; "b4"; "b5"; "b6"; "c7"; "c8"; "c9"; "c10"; "c11"])
         6 = Ok true).
Proof. vm_compute. repeat split. Qed.

Lemma find_branch_point_at blocks node n :
  same_hash blocks node n = Ok true → find_branch_point blocks node n n = Ok n.
Proof.
  intros Hsame. rewrite find_branch_point_equation_1. cbv zeta.
  replace ((n + n) `quot` 2) with n
    by (replace (n + n) with (n * 2) by lia; rewrite Z.quot_mul; lia).
  destruct (Z_gt_dec n n); [lia |]. rewrite Hsame.
  by destruct (Z.eq_dec n n).
Qed.

(** When the tip has the same hash on both sides it is the branch point. *)
Lemma branch_point_tip blocks node tip :
  last_block blocks = Some tip →
  same_hash blocks node (Block.id tip) = Ok true →
  branch_point blocks node = Ok (Block.id tip).
Proof.
  intros Hlast Hsame. unfold branch_point. rewrite Hlast.
  rewrite find_branch_point_at by done. cbn [mbind res_bind].
  by rewrite Z.eqb_refl.
Qed.

(** What the probe answers is 0 or an id at which the hashes agree. *)
Lemma find_branch_point_sound blocks node value high r :
  find_branch_point blocks node value high = Ok r →
  r = 0 ∨ same_hash blocks node r = Ok true.
Proof.
  funelim (find_branch_point blocks node value high).
  clear Heqcall. intros Hr.
  destruct (Z_gt_dec value high) as [|Hle]; [left; congruence |].
  destruct (same_hash blocks node ((value + high) `quot` 2)) as [[]|] eqn:E;
    [| by apply (H0 Hle false) | done].
  destruct (Z.eq_dec value ((value + high) `quot` 2)) as [Heq|Hne];
    [| by apply (H Hle true Hne)].
  injection Hr as <-. right. by rewrite Heq at 1.
Qed.

Lemma branch_point_sound blocks node r :
  branch_point blocks node = Ok r →
  r = 0 ∨ same_hash blocks node r = Ok true.
Proof.
  unfold branch_point. destruct (last_block blocks) as [tip|]; [| left; congruence].
  destruct (find_branch_point blocks node (Block.id tip) (Block.id tip))
    as [probe|] eqn:E; [| done].
  cbn [mbind res_bind]. destruct (Z.eqb_spec probe (Block.id tip)) as [->|_].
  - intros [= <-]. by apply find_branch_point_sound in E.
  - apply find_branch_point_sound.
Qed.

(** ** Block.valid and the blocks that sync admits *)

Section Valid.
Context `{Primitives}.





End Valid.




(** A fight that is won at the first blow: the draws are 0 (the monster),
    5 and 5 (the attack), 3 (the damage) and 0 (the reward). *)
Example HackAndSlash_win :
  let slime : gmap string string :=
    <[ "hp" := "2" ]> (<[ "piercing" := "0" ]> (<[ "armor" := "0" ]>
      (<[ "damage" := "1d4" ]> {[ "reward1" := "POTN" ]}))) in
  let novice := Avatar.mk Avatar.Novice "alice" "alice" "HASH"
                          13 12 9 10 11 8 15 0 1 ∅ in
  let monster := Monster.mk slime 2 0 0 in
  HackAndSlash_run [slime] novice [0; 3; 5; 5; 0]
  = Some (Ok (Avatar.get_item novice "POTN",
              battle_result "win"
                [ attack_monster 4 monster;
                  kill_monster (Monster.set_hp (-2) monster);
                  get_item "POTN" ])).
Proof. vm_compute. reflexivity. Qed.

(** The stream runs out at the attack roll: the fight ends with [finish]. *)
Example HackAndSlash_finish :
  let slime : gmap string string :=
    <[ "hp" := "2" ]> (<[ "piercing" := "0" ]> (<[ "armor" := "0" ]>
      (<[ "damage" := "1d4" ]> {[ "reward1" := "POTN" ]}))) in
  let novice := Avatar.mk Avatar.Novice "alice" "alice" "HASH"
                          13 12 9 10 11 8 15 0 1 ∅ in
  HackAndSlash_run [slime] novice [5; 0]
  = Some (Ok (novice, battle_result "finish" [run (Monster.mk slime 2 0 0)])).
Proof. vm_compute. reflexivity. Qed.

(* ================================================================== *)
(** * Further properties of the code *)

(** ** Move.roll: bounds, the dice one by one, malformed dice *)

Lemma sum_app (l1 l2 : list Z) : sum (l1 ++ l2) = sum l1 + sum l2.
Proof. induction l1 as [|x l1 IH]; simpl; [done |]. unfold sum in *. simpl. lia. Qed.

Lemma sum_dice_bounds (m : Z) (drawn : list Z) :
  0 < m →
  Z.of_nat (length drawn) ≤ sum (map (λ v, v mod m + 1) drawn)
                          ≤ Z.of_nat (length drawn) * m.
Proof.
  intros Hm. induction drawn as [|v drawn IH]; [simpl; unfold sum; simpl; lia |].
  cbn [map length]. change (sum (?x :: ?l)) with (x + sum l).
  pose proof (Z.mod_pos_bound v m Hm). lia.
Qed.

Lemma tail_of_stream (n : nat) (randoms : list Z) :
  (n ≤ length randoms)%nat →
  randoms = take (length randoms - n) randoms
            ++ reverse (reverse (drop (length randoms - n) randoms))
  ∧ length (reverse (drop (length randoms - n) randoms)) = n.
Proof.
  intros Hn. rewrite reverse_involutive, take_drop. split; [done |].
  rewrite length_reverse, length_drop. lia.
Qed.

(** X1: a roll of [NdM] or [NdM+K] with [M >= 1] on a stream of at least
    [N] randoms takes exactly the last [N] of them, leaves the others as
    they were, and its total lies between [N + K] and [N * M + K]. *)
Theorem roll_total_bounds (n m : N) (k : option N) (randoms : list Z) :
  (0 < m)%N → (N.to_nat n ≤ length randoms)%nat →
  ∃ total,
    roll randoms (dice_expr n m k) true
    = Ok (Combined total, take (length randoms - N.to_nat n) randoms)
    ∧ Z.of_N n + from_option Z.of_N 0 k ≤ total
      ≤ Z.of_N n * Z.of_N m + from_option Z.of_N 0 k.
Proof.
  intros Hm Hn.
  destruct (tail_of_stream (N.to_nat n) randoms Hn) as [Hsplit Hlen].
  set (drawn := reverse (drop (length randoms - N.to_nat n) randoms)) in *.
  eexists. split.
  - rewrite Hsplit at 1. unfold roll. rewrite parse_dice_expr. simpl.
    rewrite <- Z_N_nat, N2Z.id, <- Hlen, roll_loop_draws by lia. reflexivity.
  - pose proof (sum_dice_bounds (Z.of_N m) drawn ltac:(lia)) as Hb.
    rewrite Hlen, N_nat_Z in Hb. simpl. lia.
Qed.

Lemma roll_total_bounds_witness :
  ∃ total,
    roll [9; 1; 7; 3] (dice_expr 2 6 (Some 1%N)) true
    = Ok (Combined total, take (length [9; 1; 7; 3] - N.to_nat 2) [9; 1; 7; 3])
    ∧ 2 + 1 ≤ total ≤ 2 * 6 + 1.
Proof.
  apply (roll_total_bounds 2 6 (Some 1%N) [9; 1; 7; 3]); [reflexivity | simpl; lia].
Defined.

(** X2: with [combine=False] the roll returns the dice one by one, in the
    order they were drawn (the last random first), each between 1 and [M],
    and the [+K] of the expression is left out. *)
Theorem roll_each_dice (n m : N) (k : option N) (randoms : list Z) :
  (0 < m)%N → (N.to_nat n ≤ length randoms)%nat →
  ∃ dice,
    roll randoms (dice_expr n m k) false
    = Ok (Each dice, take (length randoms - N.to_nat n) randoms)
    ∧ dice = map (λ v, v mod Z.of_N m + 1)
                 (reverse (drop (length randoms - N.to_nat n) randoms))
    ∧ length dice = N.to_nat n
    ∧ Forall (λ d, 1 ≤ d ≤ Z.of_N m) dice.
Proof.
  intros Hm Hn.
  destruct (tail_of_stream (N.to_nat n) randoms Hn) as [Hsplit Hlen].
  set (drawn := reverse (drop (length randoms - N.to_nat n) randoms)) in *.
  exists (map (λ v, v mod Z.of_N m + 1) drawn). split_and!.
  - rewrite Hsplit at 1. unfold roll. rewrite parse_dice_expr. simpl.
    rewrite <- Z_N_nat, N2Z.id, <- Hlen, roll_loop_draws by lia. reflexivity.
  - done.
  - by rewrite length_map.
  - apply Forall_map, Forall_forall. intros v _. simpl.
    pose proof (Z.mod_pos_bound v (Z.of_N m) ltac:(lia)). lia.
Qed.

Lemma roll_each_dice_witness :
  ∃ dice,
    roll [9; 1; 7; 3] (dice_expr 2 6 (Some 1%N)) false
    = Ok (Each dice, take (length [9; 1; 7; 3] - N.to_nat 2) [9; 1; 7; 3])
    ∧ dice = map (λ v, v mod Z.of_N 6 + 1)
                 (reverse (drop (length [9; 1; 7; 3] - N.to_nat 2) [9; 1; 7; 3]))
    ∧ length dice = N.to_nat 2
    ∧ Forall (λ d, 1 ≤ d ≤ Z.of_N 6) dice.
Proof.
  apply (roll_each_dice 2 6 (Some 1%N) [9; 1; 7; 3]); [reflexivity | simpl; lia].
Defined.

Lemma find_lower c s : -1 ≤ find c s.
Proof.
  induction s as [|a s IH]; simpl; [lia |].
  destruct (Ascii.eqb a c); [lia |]. destruct (Z.ltb_spec (find c s) 0); lia.
Qed.

Lemma find_absent_cons c a s :
  find c (String a s) = -1 → Ascii.eqb a c = false ∧ find c s = -1.
Proof.
  simpl. destruct (Ascii.eqb a c); [done |].
  pose proof (find_lower c s). destruct (Z.ltb_spec (find c s) 0); lia.
Qed.

Lemma split_absent c s : find c s = -1 → split c s = [s].
Proof.
  induction s as [|a s IH]; [done |].
  intros [Ha Hs]%find_absent_cons. simpl. by rewrite Ha, IH.
Qed.

Lemma split_pieces_absent c c' s :
  find c s = -1 → Forall (λ p, find c p = -1) (split c' s).
Proof.
  induction s as [|a s IH]; [by repeat constructor |].
  intros [Ha Hs]%find_absent_cons. specialize (IH Hs). simpl.
  destruct (Ascii.eqb a c'); [by constructor |].
  destruct (split c' s) as [|p ps]; [repeat constructor; simpl; by rewrite Ha |].
  apply Forall_cons in IH as [Hp Hps]. constructor; [| done].
  simpl. by rewrite Ha, Hp.
Qed.

Lemma parse_dice_no_d dice : find "d" dice = -1 → parse_dice dice = Raise ValueError.
Proof.
  intros Hd. unfold parse_dice.
  destruct (0 <? find "+" dice).
  - pose proof (split_pieces_absent "d" "+" dice Hd) as Hp.
    destruct (split "+" dice) as [|d [|p [|]]]; try done.
    apply Forall_cons in Hp as [Hd' _].
    unfold int_or_ValueError. destruct (int p); [| done].
    cbn [mbind res_bind]. by rewrite (split_absent "d" d Hd').
  - cbn [mbind res_bind]. by rewrite (split_absent "d" dice Hd).
Qed.

(** X3: malformed dice.  A dice string without a [d] raises [ValueError]
    whatever the stream holds; a die with no side, [Nd0] with [N >= 1],
    raises [OutOfRandomError] on the empty stream and [ZeroDivisionError]
    on any other, the random being popped before the division. *)
Theorem roll_malformed (randoms : list Z) (combine : bool) :
  (∀ dice, find "d" dice = -1 → roll randoms dice combine = Raise ValueError)
  ∧ (∀ (n : N) (k : option N),
       (0 < n)%N →
       roll randoms (dice_expr n 0 k) combine
       = Raise (match randoms with
                | [] => OutOfRandomError
                | _ => ZeroDivisionError
                end)).
Proof.
  split.
  - intros dice Hd. unfold roll. by rewrite parse_dice_no_d.
  - intros n k Hn. unfold roll. rewrite parse_dice_expr. simpl.
    rewrite <- Z_N_nat, N2Z.id.
    destruct (N.to_nat n) as [|cnt] eqn:E; [lia |].
    destruct randoms as [|x l _] using rev_ind; [done |].
    simpl. rewrite pop_snoc. by destruct l.
Qed.

Lemma roll_malformed_witness :
  roll [4; 2] "26" true = Raise ValueError
  ∧ roll [4; 2] (dice_expr 2 0 None) true = Raise ZeroDivisionError.
Proof.
  destruct (roll_malformed [4; 2] true) as [Hd Hzero].
  split; [apply Hd; reflexivity | apply (Hzero 2%N None); reflexivity].
Defined.

(** ** Move.get_randoms: what the stream holds and how long it is *)

Lemma is_hex_cases a :
  is_hex a = true →
  a ∈ ["0"; "1"; "2"; "3"; "4"; "5"; "6"; "7"; "8"; "9";
       "a"; "b"; "c"; "d"; "e"; "f"]%char.
Proof. unfold is_hex. apply bool_decide_eq_true_1. Qed.

Lemma xor_hex a b :
  is_hex a = true → is_hex b = true →
  0 ≤ Z.lxor (ord a) (ord b) < 16 ∨ 80 ≤ Z.lxor (ord a) (ord b) < 96.
Proof.
  intros Ha%is_hex_cases Hb%is_hex_cases.
  repeat (apply elem_of_cons in Ha as [-> | Ha]); [.. | by apply elem_of_nil in Ha];
    repeat (apply elem_of_cons in Hb as [-> | Hb]); [.. | by apply elem_of_nil in Hb];
    vm_compute; first [left; split; easy | right; split; easy].
Qed.

Lemma zip_xor_hex a b :
  all_hex a = true → all_hex b = true →
  Forall (λ v, 0 ≤ v < 16 ∨ 80 ≤ v < 96) (zip_xor a b).
Proof.
  revert b. induction a as [|x a IH]; intros [|y b]; simpl; try by constructor.
  intros [Hx Ha]%andb_true_iff [Hy Hb]%andb_true_iff.
  constructor; [by apply xor_hex | by apply IH].
Qed.

Lemma slice_from_sublist {A} (start : Z) (l : list A) :
  ∃ n, slice_from start l = drop n l.
Proof. unfold slice_from. destruct (start <? 0); eauto. Qed.

(** X4: when the hash of the block and the id of the move are hex digests,
    every random of the stream is below 16 or between 80 and 95: the XOR of
    two hex characters is never any other byte. *)
Theorem get_randoms_hex (self : Move.t) (block : Block.t) (bh mid : string) :
  Move.block self = Some block →
  Block.hash block = Some bh → Move.id self = Some mid →
  all_hex bh = true → all_hex mid = true →
  Forall (λ v, 0 ≤ v < 16 ∨ 80 ≤ v < 96) (get_randoms self).
Proof.
  intros Hb Hh Hid Hbh Hmid. unfold get_randoms. rewrite Hb, Hh, Hid.
  destruct (truthy _ && truthy _); [| by constructor]. simpl.
  destruct (slice_from_sublist (Block.difficulty block `quot` 4) (zip_xor bh mid))
    as [n ->].
  apply Forall_drop. by apply zip_xor_hex.
Qed.

Lemma get_randoms_hex_witness :
  let block := Block.mk 7 (Some "a3f0") None "alice" "" "0" 4 0 in
  let self := Move.mk (Some "09bd") (Some 7) (Some block) "alice" None
                      "hack_and_slash" ∅ 0 0 in
  Forall (λ v, 0 ≤ v < 16 ∨ 80 ≤ v < 96) (get_randoms self).
Proof.
  intros block self.
  apply (get_randoms_hex self block "a3f0" "09bd"); reflexivity.
Defined.

Lemma zip_xor_length a b :
  length (zip_xor a b) = min (String.length a) (String.length b).
Proof.
  revert b. induction a as [|x a IH]; intros [|y b]; simpl; try done.
  by rewrite IH.
Qed.

(** X5: for a confirmed move in a block of difficulty [d >= 0] the stream
    has as many randoms as the shorter of the block hash and the move id
    has characters, less [d / 4]; once [d / 4] reaches that length the
    stream is empty and a [hack_and_slash] raises [IndexError]. *)
Theorem get_randoms_length (self : Move.t) (block : Block.t) (bh mid : string) :
  Move.block self = Some block →
  Block.hash block = Some bh → Move.id self = Some mid →
  bh ≠ EmptyString → mid ≠ EmptyString →
  0 ≤ Block.difficulty block →
  length (get_randoms self)
  = (min (String.length bh) (String.length mid)
     - Z.to_nat (Block.difficulty block / 4))%nat
  ∧ (Z.of_nat (min (String.length bh) (String.length mid))
       ≤ Block.difficulty block / 4 →
     ∀ monsters avatar,
       HackAndSlash_execute monsters self avatar = Some (Raise IndexError)).
Proof.
  intros Hb Hh Hid Hbh Hmid Hd.
  assert (Hlen : length (get_randoms self)
                 = (min (String.length bh) (String.length mid)
                    - Z.to_nat (Block.difficulty block / 4))%nat).
  { unfold get_randoms. rewrite Hb, Hh, Hid.
    destruct bh as [|x bh]; [done |]. destruct mid as [|y mid]; [done |].
    cbn [truthy andb default]. unfold slice_from.
    rewrite Z.quot_div_nonneg by lia.
    destruct (Z.ltb_spec (Block.difficulty block / 4) 0) as [Hneg|_].
    { pose proof (Z.div_pos (Block.difficulty block) 4). lia. }
    by rewrite length_drop, zip_xor_length. }
  split; [done |]. intros Hfull monsters avatar.
  unfold HackAndSlash_execute.
  destruct (get_randoms self) as [|v l]; [done |]. simpl in Hlen. lia.
Qed.

Lemma get_randoms_length_witness :
  let block := Block.mk 7 (Some "a3f0") None "alice" "" "0" 16 0 in
  let self := Move.mk (Some "09bd") (Some 7) (Some block) "alice" None
                      "hack_and_slash" ∅ 0 0 in
  length (get_randoms self) = (min 4 4 - Z.to_nat (16 / 4))%nat
  ∧ HackAndSlash_execute [] self
      (Avatar.mk Avatar.Novice "alice" "alice" "HASH" 13 12 9 10 11 8 15 0 1 ∅)
    = Some (Raise IndexError).
Proof.
  intros block self.
  destruct (get_randoms_length self block "a3f0" "09bd") as [Hlen Hexec];
    try reflexivity; try discriminate.
  split; [exact Hlen | apply Hexec; discriminate].
Defined.

(** ** Avatar.modifier *)

(** X6: the modifier of an ability score lies between -3 and 3, does not
    go down as the score goes up from 1 to 18, and is 0 for any score
    outside 1..18 (so 19 gives 0 where 18 gives 3);
    [modifier('strength')] is the modifier of the avatar's strength. *)
Theorem modifier_of_spec (s t : Z) (avatar : Avatar.t) :
  -3 ≤ Avatar.modifier_of s ≤ 3
  ∧ (1 ≤ s → s ≤ t → t ≤ 18 → Avatar.modifier_of s ≤ Avatar.modifier_of t)
  ∧ (s < 1 ∨ 18 < s → Avatar.modifier_of s = 0)
  ∧ Avatar.modifier avatar "strength"
    = Ok (Avatar.modifier_of (Avatar.strength avatar)).
Proof.
  assert (Hout : ∀ u, u < 1 ∨ 18 < u → Avatar.modifier_of u = 0).
  { intros u Hu. unfold Avatar.modifier_of.
    rewrite !bool_decide_eq_false_2
      by (rewrite ?elem_of_cons, elem_of_nil; lia).
    destruct (Z.eqb_spec u 18); [lia | done]. }
  assert (Hcases : ∀ u, 1 ≤ u ≤ 18 →
    u ∈ [1; 2; 3; 4; 5; 6; 7; 8; 9; 10; 11; 12; 13; 14; 15; 16; 17; 18]).
  { intros u Hu. rewrite !elem_of_cons. lia. }
  split; [| split; [| split]].
  - destruct (decide (1 ≤ s ≤ 18)) as [Hs|Hs]; [| rewrite Hout by lia; lia].
    apply Hcases in Hs.
    repeat (apply elem_of_cons in Hs as [-> | Hs]); [.. | by apply elem_of_nil in Hs];
      split; vm_compute; easy.
  - intros H1 Hst H18.
    assert (Hs : 1 ≤ s ≤ 18) by lia. assert (Ht : 1 ≤ t ≤ 18) by lia.
    apply Hcases in Hs. apply Hcases in Ht.
    repeat (apply elem_of_cons in Hs as [-> | Hs]); [.. | by apply elem_of_nil in Hs];
      repeat (apply elem_of_cons in Ht as [-> | Ht]); [.. | by apply elem_of_nil in Ht];
      first [lia | vm_compute; easy].
  - apply Hout.
  - reflexivity.
Qed.

Lemma modifier_of_spec_witness :
  Avatar.modifier_of 7 ≤ Avatar.modifier_of 13 ∧ Avatar.modifier_of 19 = 0.
Proof.
  destruct (modifier_of_spec 7 13
              (Avatar.mk Avatar.Novice "alice" "alice" "HASH" 13 12 9 10 11 8 15 0 1 ∅))
    as (_ & Hmono & _ & _).
  destruct (modifier_of_spec 19 19
              (Avatar.mk Avatar.Novice "alice" "alice" "HASH" 13 12 9 10 11 8 15 0 1 ∅))
    as (_ & _ & Hout & _).
  split; [apply Hmono; lia | apply Hout; lia].
Defined.

(** ** Avatar.get_item, Send.receive and the items that change hands *)

Lemma get_item_items avatar item k :
  Avatar.items (Avatar.get_item avatar item) !! k
  = if decide (item = k) then Some (count avatar item + 1)
    else Avatar.items avatar !! k.
Proof.
  unfold Avatar.get_item, count.
  destruct (Avatar.items avatar !! item) as [n|] eqn:E; simpl;
    by rewrite lookup_insert.
Qed.

Lemma get_item_iter_items avatar item times k :
  Avatar.items (Nat.iter (S times) (λ a, Avatar.get_item a item) avatar) !! k
  = if decide (item = k) then Some (count avatar item + Z.of_nat (S times))
    else Avatar.items avatar !! k.
Proof.
  induction times as [|times IH].
  - change (Nat.iter 1 ?f ?x) with (f x). cbv beta.
    rewrite get_item_items. destruct (decide (item = k)); [f_equal; lia | done].
  - change (Nat.iter (S (S times)) ?f ?x) with (f (Nat.iter (S times) f x)).
    cbv beta. rewrite get_item_items.
    destruct (decide (item = k)) as [<-|Hk]; [| done].
    unfold count at 1. rewrite IH. simpl. f_equal. lia.
Qed.

(** X7: gaining an item and spending it again leaves the count as it was,
    and an entry stays behind: an item the avatar did not have is in
    [items] with count 0 afterwards, so [item in avatar.items] is true
    from then on. *)
Theorem get_item_take_item (avatar : Avatar.t) (item : string) :
  ∃ avatar',
    Avatar.take_item (Avatar.get_item avatar item) item 1 = Ok avatar'
    ∧ Avatar.items avatar' !! item = Some (count avatar item)
    ∧ (∀ k, k ≠ item → Avatar.items avatar' !! k = Avatar.items avatar !! k)
    ∧ avatar' = Avatar.set_items (Avatar.items avatar') avatar.
Proof.
  unfold Avatar.take_item, getitem. rewrite get_item_items, decide_True by done.
  simpl. eexists. split_and!; [done | | |].
  - simpl. rewrite lookup_insert_eq. f_equal. lia.
  - intros k Hk. simpl. rewrite lookup_insert_ne by done.
    rewrite get_item_items. by rewrite decide_False.
  - unfold Avatar.get_item. by destruct (Avatar.items avatar !! item).
Qed.

(** X8: [receive] adds the amount to the receiver's count of the item and
    touches nothing else; an amount of 0 or less adds nothing, and does
    not even read the name of the item. *)
Theorem Send_receive_spec (self : Move.t) (receiver : Avatar.t)
    (text : string) (amount : Z) :
  Move.details self !! "amount" = Some text → int text = Some amount →
  (amount ≤ 0 →
     Send_receive self receiver
     = Ok (receiver, Result.mk "receive" (Some "success") None None None))
  ∧ (∀ item_name,
       0 < amount → Move.details self !! "item_name" = Some item_name →
       ∃ receiver',
         Send_receive self receiver
         = Ok (receiver', Result.mk "receive" (Some "success") None None None)
         ∧ Avatar.items receiver' !! item_name
           = Some (count receiver item_name + amount)
         ∧ (∀ k, k ≠ item_name →
              Avatar.items receiver' !! k = Avatar.items receiver !! k)
         ∧ receiver' = Avatar.set_items (Avatar.items receiver') receiver)
  ∧ (0 < amount → Move.details self !! "item_name" = None →
       Send_receive self receiver = Raise KeyError).
Proof.
  intros Htext Hint. unfold Send_receive, getitem, int_or_ValueError.
  rewrite Htext. cbn [mbind res_bind]. rewrite Hint. cbn [mbind res_bind].
  split_and!.
  - intros Hle. by replace (Z.to_nat amount) with O by lia.
  - intros item_name Hpos Hname. rewrite Hname.
    destruct (Z.to_nat amount) as [|times] eqn:E; [lia |].
    cbn [mbind res_bind]. eexists. split_and!; [done | | |].
    + rewrite get_item_iter_items, decide_True by done. f_equal. lia.
    + intros k Hk. by rewrite get_item_iter_items, decide_False.
    + clear. induction times as [|times IH].
      * change (Nat.iter 1 ?f ?x) with (f x). cbv beta.
        unfold Avatar.get_item. by destruct (_ !! _).
      * change (Nat.iter (S (S times)) ?f ?x) with (f (Nat.iter (S times) f x)).
        cbv beta. set (a := Nat.iter (S times) _ receiver) in *. clearbody a.
        unfold Avatar.get_item.
        destruct (Avatar.items a !! item_name); destruct a, receiver;
          unfold Avatar.set_items in *; simpl in *; congruence.
  - intros Hpos Hname. rewrite Hname.
    by destruct (Z.to_nat amount) as [|times] eqn:E; [lia |].
Qed.

Lemma Send_receive_spec_witness :
  let self := Move.mk None None None "alice" None "send"
                (<[ "item_name" := "GOLD" ]> (<[ "amount" := "3" ]>
                   {[ "receiver" := "bob" ]})) 0 0 in
  let bob := Avatar.mk Avatar.Novice "bob" "bob" "HASH"
                       13 12 9 10 11 8 15 0 1 {[ "GOLD" := 8 ]} in
  ∃ receiver',
    Send_receive self bob
    = Ok (receiver', Result.mk "receive" (Some "success") None None None)
    ∧ Avatar.items receiver' !! "GOLD" = Some (count bob "GOLD" + 3)
    ∧ (∀ k, k ≠ "GOLD" → Avatar.items receiver' !! k = Avatar.items bob !! k)
    ∧ receiver' = Avatar.set_items (Avatar.items receiver') bob.
Proof.
  intros self bob.
  destruct (Send_receive_spec self bob "3" 3) as (_ & Hpos & _);
    [reflexivity | reflexivity |].
  apply Hpos; [lia | reflexivity].
Defined.

(** X9: a transfer moves items and makes none: when the sender holds at
    least the amount and the amount is not negative, [execute] on the
    sender and [receive] on the receiver leave the sum of their counts of
    the item as it was. *)
Theorem Send_conserves (self : Move.t) (sender receiver : Avatar.t)
    (item_name text : string) (amount have : Z) :
  Move.details self !! "item_name" = Some item_name →
  Move.details self !! "amount" = Some text → int text = Some amount →
  Avatar.items sender !! item_name = Some have →
  0 ≤ amount → amount ≤ have →
  ∃ sender' receiver' r1 r2,
    Send_execute self sender = Ok (sender', r1)
    ∧ Send_receive self receiver = Ok (receiver', r2)
    ∧ Result.result r1 = Some "success"
    ∧ count sender' item_name = have - amount
    ∧ count receiver' item_name = count receiver item_name + amount
    ∧ count sender' item_name + count receiver' item_name
      = count sender item_name + count receiver item_name.
Proof.
  intros Hname Htext Hint Hhave H0 Hle.
  assert (Hs : Send_execute self sender
    = Ok (Avatar.set_items (<[item_name := have - amount]> (Avatar.items sender)) sender,
          Result.mk "send" (Some "success") None None None)).
  { unfold Send_execute, getitem, int_or_ValueError, Avatar.take_item.
    rewrite Hname, Htext. cbn [mbind res_bind]. rewrite Hhave, Hint.
    cbn [mbind res_bind]. destruct (Z.ltb_spec (have - amount) 0); [lia |].
    unfold getitem. by rewrite Hhave. }
  assert (Hr : ∃ receiver' r2, Send_receive self receiver = Ok (receiver', r2)
                 ∧ count receiver' item_name = count receiver item_name + amount).
  { unfold Send_receive, getitem, int_or_ValueError.
    rewrite Htext. cbn [mbind res_bind]. rewrite Hint, Hname. cbn [mbind res_bind].
    destruct (Z.to_nat amount) as [|times] eqn:E.
    - eexists _, _. split; [done |]. lia.
    - cbn [mbind res_bind]. eexists _, _. split; [done |].
      unfold count at 1. rewrite get_item_iter_items, decide_True by done.
      simpl. lia. }
  destruct Hr as (receiver' & r2 & Hr & Hcount).
  eexists _, receiver', _, r2. split_and!; [exact Hs | exact Hr | done | | done |].
  - unfold count. simpl. by rewrite lookup_insert_eq.
  - rewrite Hcount. unfold count at 1 3. simpl.
    rewrite lookup_insert_eq, Hhave. simpl. lia.
Qed.

Lemma Send_conserves_witness :
  let self := Move.mk None None None "alice" None "send"
                (<[ "item_name" := "GOLD" ]> (<[ "amount" := "3" ]>
                   {[ "receiver" := "bob" ]})) 0 0 in
  let alice := Avatar.mk Avatar.Novice "alice" "alice" "HASH"
                         13 12 9 10 11 8 15 0 1 {[ "GOLD" := 8 ]} in
  let bob := Avatar.mk Avatar.Novice "bob" "bob" "HASH"
                       13 12 9 10 11 8 15 0 1 ∅ in
  ∃ sender' receiver' r1 r2,
    Send_execute self alice = Ok (sender', r1)
    ∧ Send_receive self bob = Ok (receiver', r2)
    ∧ Result.result r1 = Some "success"
    ∧ count sender' "GOLD" = 8 - 3
    ∧ count receiver' "GOLD" = count bob "GOLD" + 3
    ∧ count sender' "GOLD" + count receiver' "GOLD"
      = count alice "GOLD" + count bob "GOLD".
Proof.
  intros self alice bob.
  apply (Send_conserves self alice bob "GOLD" "3" 3 8); try reflexivity; lia.
Defined.

(** X10: a negative amount is not refused.  When the sender has an entry
    for the item, [execute] on an amount below 0 returns [success] and the
    sender's count goes up by that much, while [receive] gives the receiver
    nothing: the sum of the two counts grows. *)
Theorem Send_negative_amount (self : Move.t) (sender receiver : Avatar.t)
    (item_name text : string) (amount have : Z) :
  Move.details self !! "item_name" = Some item_name →
  Move.details self !! "amount" = Some text → int text = Some amount →
  Avatar.items sender !! item_name = Some have →
  amount < 0 → 0 ≤ have →
  ∃ sender' r1,
    Send_execute self sender = Ok (sender', r1)
    ∧ Result.result r1 = Some "success"
    ∧ count sender' item_name = have - amount
    ∧ Send_receive self receiver
      = Ok (receiver, Result.mk "receive" (Some "success") None None None)
    ∧ count sender item_name + count receiver item_name
      < count sender' item_name + count receiver item_name.
Proof.
  intros Hname Htext Hint Hhave Hneg H0.
  eexists _, _. split_and!.
  - unfold Send_execute, getitem, int_or_ValueError, Avatar.take_item.
    rewrite Hname, Htext. cbn [mbind res_bind]. rewrite Hhave, Hint.
    cbn [mbind res_bind]. destruct (Z.ltb_spec (have - amount) 0); [lia |].
    unfold getitem. rewrite Hhave. reflexivity.
  - done.
  - unfold count. simpl. by rewrite lookup_insert_eq.
  - unfold Send_receive, getitem, int_or_ValueError.
    rewrite Htext. cbn [mbind res_bind]. rewrite Hint. cbn [mbind res_bind].
    by replace (Z.to_nat amount) with O by lia.
  - unfold count at 1 3. simpl. rewrite lookup_insert_eq, Hhave. simpl. lia.
Qed.

Lemma Send_negative_amount_witness :
  let self := Move.mk None None None "alice" None "send"
                (<[ "item_name" := "GOLD" ]> (<[ "amount" := "-5" ]>
                   {[ "receiver" := "bob" ]})) 0 0 in
  let alice := Avatar.mk Avatar.Novice "alice" "alice" "HASH"
                         13 12 9 10 11 8 15 0 1 {[ "GOLD" := 8 ]} in
  let bob := Avatar.mk Avatar.Novice "bob" "bob" "HASH"
                       13 12 9 10 11 8 15 0 1 ∅ in
  ∃ sender' r1,
    Send_execute self alice = Ok (sender', r1)
    ∧ Result.result r1 = Some "success"
    ∧ count sender' "GOLD" = 8 - -5
    ∧ Send_receive self bob
      = Ok (bob, Result.mk "receive" (Some "success") None None None)
    ∧ count alice "GOLD" + count bob "GOLD"
      < count sender' "GOLD" + count bob "GOLD".
Proof.
  intros self alice bob.
  apply (Send_negative_amount self alice bob "GOLD" "-5" (-5) 8);
    try reflexivity; lia.
Defined.

(** ** CreateNovice.execute and Sleep.execute *)

Lemma detail_int_getitem self key z :
  detail_int self key = Some z →
  getitem (Move.details self) key ≫= int_or_ValueError = Ok z.
Proof.
  unfold detail_int, getitem, int_or_ValueError.
  destruct (Move.details self !! key) as [text|]; [simpl | done].
  by intros ->.
Qed.

(** X11: [create_novice] with the six abilities in its details returns a
    [Novice] with those abilities, at full health ([hp = constitution + 6],
    so that a [sleep] right after changes nothing), with [xp = 0],
    [lv = 1] and no item but gold: the gold of the avatar it is given, or
    0 without one.  An avatar without an entry for GOLD makes it raise
    [KeyError]. *)
Theorem CreateNovice_execute_spec (self : Move.t) (avatar : option Avatar.t) :
  (∀ strength dexterity constitution intelligence wisdom charisma gold,
      detail_int self "strength" = Some strength →
      detail_int self "dexterity" = Some dexterity →
      detail_int self "constitution" = Some constitution →
      detail_int self "intelligence" = Some intelligence →
      detail_int self "wisdom" = Some wisdom →
      detail_int self "charisma" = Some charisma →
      carried_gold avatar gold →
      ∃ novice,
        CreateNovice_execute self avatar
        = Ok (novice, Move.block self,
              Result.mk "create_novice" (Some "success") None None None)
        ∧ Avatar.cls novice = Avatar.Novice
        ∧ Avatar.user novice = Move.user self
        ∧ (Avatar.strength novice, Avatar.dexterity novice,
           Avatar.constitution novice, Avatar.intelligence novice,
           Avatar.wisdom novice, Avatar.charisma novice)
          = (strength, dexterity, constitution, intelligence, wisdom, charisma)
        ∧ Avatar.hp novice = constitution + 6
        ∧ Avatar.xp novice = 0 ∧ Avatar.lv novice = 1
        ∧ Avatar.items novice = {[ "GOLD" := gold ]}
        ∧ Sleep_execute self novice
          = Ok (novice, Result.mk "sleep" (Some "success") None None None))
  ∧ (∀ old, avatar = Some old → Avatar.items old !! "GOLD" = None →
      CreateNovice_execute self avatar = Raise KeyError).
Proof.
  split.
  - intros s d c i w ch gold Hs Hd Hc Hi Hw Hch Hgold.
    unfold CreateNovice_execute.
    assert (Hg : match avatar with
                 | Some avatar => getitem (Avatar.items avatar) "GOLD"
                 | None => Ok 0
                 end = Ok gold).
    { destruct avatar as [old|]; simpl in Hgold; [| by subst].
      unfold getitem. by rewrite Hgold. }
    rewrite Hg. cbn [mbind res_bind].
    rewrite (detail_int_getitem _ _ _ Hs). cbn [mbind res_bind].
    rewrite (detail_int_getitem _ _ _ Hd). cbn [mbind res_bind].
    rewrite (detail_int_getitem _ _ _ Hc). cbn [mbind res_bind].
    rewrite (detail_int_getitem _ _ _ Hi). cbn [mbind res_bind].
    rewrite (detail_int_getitem _ _ _ Hw). cbn [mbind res_bind].
    rewrite (detail_int_getitem _ _ _ Hch). cbn [mbind res_bind].
    eexists. split; [reflexivity |]. by split_and!.
  - intros old -> Hno. unfold CreateNovice_execute, getitem. by rewrite Hno.
Qed.

Lemma CreateNovice_execute_spec_witness :
  let self := Move.mk None None None "alice-address" None "create_novice"
                (<[ "strength" := "13" ]> (<[ "dexterity" := "12" ]>
                (<[ "constitution" := "9" ]> (<[ "intelligence" := "10" ]>
                (<[ "wisdom" := "11" ]> {[ "charisma" := "8" ]}))))) 0 0 in
  ∃ novice,
    CreateNovice_execute self None
    = Ok (novice, Move.block self,
          Result.mk "create_novice" (Some "success") None None None)
    ∧ Avatar.cls novice = Avatar.Novice
    ∧ Avatar.user novice = Move.user self
    ∧ (Avatar.strength novice, Avatar.dexterity novice,
       Avatar.constitution novice, Avatar.intelligence novice,
       Avatar.wisdom novice, Avatar.charisma novice)
      = (13, 12, 9, 10, 11, 8)
    ∧ Avatar.hp novice = 9 + 6
    ∧ Avatar.xp novice = 0 ∧ Avatar.lv novice = 1
    ∧ Avatar.items novice = {[ "GOLD" := 0 ]}
    ∧ Sleep_execute self novice
      = Ok (novice, Result.mk "sleep" (Some "success") None None None).
Proof.
  intros self.
  destruct (CreateNovice_execute_spec self None) as [Hnew _].
  apply (Hnew 13 12 9 10 11 8 0); reflexivity.
Defined.

(** ** LevelUp.execute: names that are no ability *)

Lemma getattr_unknown avatar attr :
  attr ∉ attributes → Avatar.getattr avatar attr = Raise AttributeError.
Proof.
  intros Hn. unfold Avatar.getattr.
  repeat match goal with
         | |- context [String.eqb attr ?x] =>
             destruct (String.eqb_spec attr x) as [Heq|_];
             [exfalso; apply Hn; rewrite Heq; unfold attributes;
              rewrite !elem_of_cons;
              by repeat (first [left; reflexivity | right]) |]
         end.
  reflexivity.
Qed.

(** X12: [level_up] does not check that [new_status] names an ability.
    With enough xp, a missing [new_status] raises [KeyError], a name that
    is no attribute raises [AttributeError] and the name of a string
    attribute raises [TypeError]; but [lv], [xp] and [hp] are taken: with
    [new_status = 'lv'] the level goes up by two for the price of one. *)
Theorem LevelUp_execute_other_names (self : Move.t) (avatar : Avatar.t) :
  Avatar.lv avatar + 7 ≤ Avatar.xp avatar →
  (Move.details self !! "new_status" = None →
     LevelUp_execute self avatar = Raise KeyError)
  ∧ (∀ new_status,
       Move.details self !! "new_status" = Some new_status →
       new_status ∉ attributes →
       LevelUp_execute self avatar = Raise AttributeError)
  ∧ (∀ new_status,
       Move.details self !! "new_status" = Some new_status →
       new_status ∈ ["user"; "name"; "gravatar_hash"; "items"; "profile_image_url"] →
       LevelUp_execute self avatar = Raise TypeError)
  ∧ (Move.details self !! "new_status" = Some "lv" →
     ∃ avatar',
       LevelUp_execute self avatar
       = Ok (avatar', Result.mk "level_up" (Some "success") None None None)
       ∧ Avatar.lv avatar' = Avatar.lv avatar + 2
       ∧ Avatar.xp avatar' = Avatar.xp avatar - (Avatar.lv avatar + 7))
  ∧ (Move.details self !! "new_status" = Some "xp" →
     ∃ avatar',
       LevelUp_execute self avatar
       = Ok (avatar', Result.mk "level_up" (Some "success") None None None)
       ∧ Avatar.lv avatar' = Avatar.lv avatar + 1
       ∧ Avatar.xp avatar' = Avatar.xp avatar - (Avatar.lv avatar + 7) + 1)
  ∧ (Move.details self !! "new_status" = Some "hp" →
     ∃ avatar',
       LevelUp_execute self avatar
       = Ok (avatar', Result.mk "level_up" (Some "success") None None None)
       ∧ Avatar.hp avatar' = Avatar.hp avatar + 1
       ∧ ∀ a, a ∈ abilities → ability avatar' a = ability avatar a).
Proof.
  intros Hxp. unfold LevelUp_execute.
  destruct (Z.ltb_spec (Avatar.xp avatar) (Avatar.lv avatar + 7)); [lia |].
  unfold getitem. split_and!.
  - by intros ->.
  - intros new_status -> Hn. cbn [mbind res_bind].
    by rewrite getattr_unknown.
  - intros new_status -> Hin.
    repeat (apply elem_of_cons in Hin as [-> | Hin]);
      [.. | by apply elem_of_nil in Hin]; reflexivity.
  - intros ->. eexists. split; [reflexivity |]. simpl. lia.
  - intros ->. eexists. split; [reflexivity |]. simpl. lia.
  - intros ->. eexists. split; [reflexivity |]. split; [reflexivity |].
    intros a Ha. unfold abilities in Ha.
    repeat (apply elem_of_cons in Ha as [-> | Ha]);
      [.. | by apply elem_of_nil in Ha]; reflexivity.
Qed.

Lemma LevelUp_execute_other_names_witness :
  let novice := Avatar.mk Avatar.Novice "alice" "alice" "HASH"
                          13 12 9 10 11 8 15 8 1 {[ "GOLD" := 8 ]} in
  let self := Move.mk None None None "alice" None "level_up"
                      {[ "new_status" := "lv" ]} 0 0 in
  ∃ avatar',
    LevelUp_execute self novice
    = Ok (avatar', Result.mk "level_up" (Some "success") None None None)
    ∧ Avatar.lv avatar' = Avatar.lv novice + 2
    ∧ Avatar.xp avatar' = Avatar.xp novice - (Avatar.lv novice + 7).
Proof.
  intros novice self.
  destruct (LevelUp_execute_other_names self novice) as (_ & _ & _ & Hlv & _);
    [simpl; lia |].
  apply Hlv. reflexivity.
Defined.

(** ** HackAndSlash.execute: what a fight changes and how it ends *)

Lemma round_keeps_refl s : round_keeps s s.
Proof.
  unfold round_keeps, same_character. split_and!; try done; try lia.
  exists []. by rewrite app_nil_r.
Qed.

Lemma round_keeps_trans s1 s2 s3 :
  round_keeps s1 s2 → round_keeps s2 s3 → round_keeps s1 s3.
Proof.
  unfold round_keeps, same_character.
  intros (H1 & Hx1 & Hr1 & m1 & Hl1) (H2 & Hx2 & Hr2 & m2 & Hl2).
  split_and!; try (by destruct_and!; congruence); try lia.
  exists (m1 ++ m2). by rewrite Hl2, Hl1, app_assoc.
Qed.

Ltac keeps :=
  unfold round_keeps, same_character; simpl; split_and!;
  try done; try lia;
  first [ by eexists
        | exists []; by rewrite app_nil_r
        | rewrite <- app_assoc; by eexists ].

Lemma bandage_keeps s s' x : runM bandage s = (s', x) → round_keeps s s'.
Proof.
  unfold bandage, rollM, lift, get_avatar, set_avatar, append,
    Avatar.take_item, getitem. simpl.
  repeat (case_match; simpl; try done); intros; simplify_eq/=; keeps.
Qed.

Lemma exchange_keeps s s' x : runM exchange s = (s', x) → round_keeps s s'.
Proof.
  unfold exchange, rollM, lift, get_avatar, get_monster, set_avatar,
    set_monster, append, getitem. simpl.
  repeat (case_match; simpl; try done); intros; simplify_eq/=; keeps.
Qed.

Lemma outcome_keeps s s' x : runM outcome s = (s', x) → round_keeps s s'.
Proof.
  unfold outcome, rollM, lift, get_avatar, get_monster, get_status, set_avatar,
    append, getitem, Avatar.get_item. simpl.
  repeat (case_match; simpl; try done); intros; simplify_eq/=;
    repeat case_match; keeps.
Qed.

Lemma round_keeps_round s s' x : runM round s = (s', x) → round_keeps s s'.
Proof.
  unfold round. rewrite bind_run.
  destruct (runM bandage s) as [s1 [[]|e]] eqn:E1;
    [| intros [= <- _]; by eapply bandage_keeps].
  apply bandage_keeps in E1. rewrite bind_run.
  destruct (runM exchange s1) as [s2 [[]|e]] eqn:E2;
    [| intros [= <- _]; eapply round_keeps_trans; [done | by eapply exchange_keeps]].
  apply exchange_keeps in E2. intros E3%outcome_keeps.
  eauto using round_keeps_trans.
Qed.

(** How a round ends when it ends the fight. *)
Lemma outcome_ends s s' r :
  runM outcome s = (s', Ok (Some r)) →
  (r = battle_result "win" (Battle.battle_status s')
   ∧ ∃ log more,
       Battle.battle_status s' = log ++ kill_monster (Battle.monster s) :: more
       ∧ Monster.hp (Battle.monster s) ≤ 0)
  ∨ (r = battle_result "lose" (Battle.battle_status s')
     ∧ Avatar.hp (Battle.avatar s') ≤ 0
     ∧ ∃ log, Battle.battle_status s'
              = log ++ [killed_by_monster (Battle.monster s)]).
Proof.
  unfold outcome, rollM, lift, get_avatar, get_monster, get_status, set_avatar,
    append, getitem. simpl.
  destruct (Z.leb_spec (Monster.hp (Battle.monster s)) 0) as [Hdead|Halive].
  - simpl. repeat (case_match; simpl; try done); intros; simplify_eq/=;
      (left; split; [done |]; eexists _, _; split; [| done]);
      first [ reflexivity | by rewrite <- app_assoc ].
  - simpl.
    destruct (Z.leb_spec (Avatar.hp (Battle.avatar s)) 0) as [Hko|]; simpl;
      [| done].
    intros [= <- <-]. right. simpl. split_and!; [done | done |]. by eexists.
Qed.

Lemma round_ends s s' r :
  runM round s = (s', Ok (Some r)) →
  (r = battle_result "win" (Battle.battle_status s')
   ∧ ∃ log more monster,
       Battle.battle_status s' = log ++ kill_monster monster :: more
       ∧ Monster.hp monster ≤ 0)
  ∨ (r = battle_result "lose" (Battle.battle_status s')
     ∧ Avatar.hp (Battle.avatar s') ≤ 0
     ∧ ∃ log monster, Battle.battle_status s' = log ++ [killed_by_monster monster]).
Proof.
  unfold round. rewrite bind_run.
  destruct (runM bandage s) as [s1 [[]|e]]; [| done]. rewrite bind_run.
  destruct (runM exchange s1) as [s2 [[]|e]]; [| done].
  intros [(-> & log & more & Hlog & Hhp) | (-> & Hhp & log & Hlog)]%outcome_ends.
  - left. split; [done |]. eauto.
  - right. split_and!; [done | done |]. eauto.
Qed.

(** What the loop returns. *)
Lemma battle_ends fuel s avatar' r :
  battle fuel s = Some (Ok (avatar', r)) →
  ∃ s',
    round_keeps s s' ∧ avatar' = Battle.avatar s'
    ∧ ((r = battle_result "win" (Battle.battle_status s')
        ∧ ∃ log more monster,
            Battle.battle_status s' = log ++ kill_monster monster :: more
            ∧ Monster.hp monster ≤ 0)
       ∨ (r = battle_result "lose" (Battle.battle_status s')
          ∧ Avatar.hp avatar' ≤ 0
          ∧ ∃ log monster,
              Battle.battle_status s' = log ++ [killed_by_monster monster])
       ∨ r = battle_result "finish"
               (Battle.battle_status s' ++ [run (Battle.monster s')])).
Proof.
  revert s. induction fuel as [|fuel IH]; intros s; [done |]. cbn [battle].
  destruct (runM round s) as [s1 [[r1|]|e]] eqn:E.
  - intros [= <- <-]. exists s1. split_and!; [by eapply round_keeps_round | done |].
    apply round_ends in E as [Hwin | Hlose]; [by left | right; by left].
  - intros (s' & Hk & Ha & Hr)%IH. exists s'. split_and!; [| done | done].
    eapply round_keeps_trans; [by eapply round_keeps_round | done].
  - destruct e; try done. intros [= <- <-]. exists s1.
    split_and!; [by eapply round_keeps_round | done |]. right. by right.
Qed.

(** ** HackAndSlash.execute: when it cannot raise *)

Lemma int_str_int z : int (str_int z) = Some z.
Proof.
  unfold str_int. destruct (Z.ltb_spec z 0) as [Hneg|Hpos].
  - simpl. rewrite int_unsigned_numeral. simpl. f_equal. lia.
  - rewrite int_numeral. f_equal. lia.
Qed.

Lemma load_monster_fair row :
  fair_row row → ∃ hp piercing armor, load_monster row = Ok (Monster.mk row hp piercing armor).
Proof.
  intros [(hp & piercing & armor & Hhp & Hp & Ha) _]. exists hp, piercing, armor.
  unfold load_monster, getitem, int_or_ValueError.
  rewrite Hhp, Hp, Ha. simpl. by rewrite !int_str_int.
Qed.

(** A roll of a well-formed dice expression fails for want of randoms
    only, and its total is within the bounds of the dice. *)
Lemma roll_total_dice randoms n m k :
  (0 < m)%N →
  (∃ v randoms',
      roll_total randoms (dice_expr n m k) = Ok (v, randoms')
      ∧ Z.of_N n + from_option Z.of_N 0 k ≤ v
        ≤ Z.of_N n * Z.of_N m + from_option Z.of_N 0 k)
  ∨ roll_total randoms (dice_expr n m k) = Raise OutOfRandomError.
Proof.
  intros Hm. destruct (le_lt_dec (N.to_nat n) (length randoms)) as [Hn|Hn].
  - left. destruct (tail_of_stream (N.to_nat n) randoms Hn) as [Hsplit Hlen].
    set (drawn := reverse (drop (length randoms - N.to_nat n) randoms)) in *.
    eexists _, _. split.
    + rewrite Hsplit at 1. by apply roll_total_draws.
    + pose proof (sum_dice_bounds (Z.of_N m) drawn ltac:(lia)) as Hb.
      rewrite Hlen, N_nat_Z in Hb. lia.
  - right. unfold roll_total. rewrite parse_dice_expr. simpl.
    rewrite roll_loop_exhausted; [done | lia | lia].
Qed.

Lemma roll_2d6 randoms :
  (∃ v randoms', roll_total randoms "2d6" = Ok (v, randoms') ∧ 2 ≤ v ≤ 12)
  ∨ roll_total randoms "2d6" = Raise OutOfRandomError.
Proof. exact (roll_total_dice randoms 2 6 None eq_refl). Qed.

Lemma roll_1d6 randoms :
  (∃ v randoms', roll_total randoms "1d6" = Ok (v, randoms') ∧ 1 ≤ v ≤ 6)
  ∨ roll_total randoms "1d6" = Raise OutOfRandomError.
Proof. exact (roll_total_dice randoms 1 6 None eq_refl). Qed.

Lemma roll_1d10 randoms :
  (∃ v randoms', roll_total randoms "1d10" = Ok (v, randoms') ∧ 1 ≤ v ≤ 10)
  ∨ roll_total randoms "1d10" = Raise OutOfRandomError.
Proof. exact (roll_total_dice randoms 1 10 None eq_refl). Qed.

Lemma fights_on_keeps s s' : round_keeps s s' → fights_on s → fights_on s'.
Proof.
  intros ((Hcls & _) & _ & Hrow & _) [Hc Hfair]. split; congruence.
Qed.

Lemma bandage_raises s s' e :
  fights_on s → runM bandage s = (s', Raise e) → e = OutOfRandomError.
Proof.
  intros [Hc _].
  unfold bandage, rollM, lift, get_avatar, set_avatar, append, Avatar.max_hp,
    Avatar.take_item, getitem. simpl. rewrite Hc. simpl.
  destruct (Avatar.items (Battle.avatar s) !! "BNDG") as [have|];
    [| by rewrite andb_false_r].
  destruct (_ && _); simpl; [| done].
  destruct (roll_2d6 (Battle.randoms s)) as [(v & r & -> & Hb) | ->]; simpl;
    [| by intros [= _ <-]].
  by destruct (7 <=? v).
Qed.

Lemma exchange_raises s s' e :
  fights_on s → runM exchange s = (s', Raise e) → e = OutOfRandomError.
Proof.
  intros [Hc [_ [(n & m & k & Hdmg & Hm) _]]].
  unfold exchange, rollM, lift, get_avatar, get_monster, set_avatar, set_monster,
    append, Avatar.modifier, Avatar.damage, getitem. simpl.
  destruct (roll_2d6 (Battle.randoms s)) as [(v & r & -> & Hb) | ->]; simpl;
    [| by intros [= _ <-]].
  rewrite Hc. destruct (7 <=? _); simpl.
  - destruct (roll_1d6 r) as [(v' & r' & -> & Hb') | ->]; simpl;
      [done | by intros [= _ <-]].
  - case_match; simpl; [| done]. rewrite Hdmg. simpl.
    destruct (roll_total_dice r n m k Hm) as [(v' & r' & -> & Hb') | ->]; simpl;
      [| by intros [= _ <-]].
    by case_match.
Qed.

Lemma outcome_raises s s' e :
  fights_on s → runM outcome s = (s', Raise e) → e = OutOfRandomError.
Proof.
  intros [_ [_ [_ Hreward]]].
  unfold outcome, rollM, lift, get_avatar, get_monster, get_status, set_avatar,
    append, getitem. simpl.
  destruct (Monster.hp (Battle.monster s) <=? 0); simpl.
  - destruct (roll_1d10 (Battle.randoms s)) as [(v & r & -> & Hb) | ->]; simpl;
      [| by intros [= _ <-]].
    destruct (Hreward v Hb) as [reward Hr]. simpl in Hr. rewrite Hr. simpl.
    by destruct reward.
  - by destruct (Avatar.hp (Battle.avatar s) <=? 0).
Qed.

Lemma round_raises s s' e :
  fights_on s → runM round s = (s', Raise e) → e = OutOfRandomError.
Proof.
  intros Hs. unfold round. rewrite bind_run.
  destruct (runM bandage s) as [s1 [[]|e1]] eqn:E1;
    [| intros [= _ <-]; by eapply bandage_raises].
  apply bandage_keeps in E1. apply (fights_on_keeps _ _ E1) in Hs.
  rewrite bind_run.
  destruct (runM exchange s1) as [s2 [[]|e2]] eqn:E2;
    [| intros [= _ <-]; by eapply exchange_raises].
  apply exchange_keeps in E2. apply (fights_on_keeps _ _ E2) in Hs.
  by apply outcome_raises.
Qed.

Lemma battle_never_raises fuel s e :
  fights_on s → battle fuel s ≠ Some (Raise e).
Proof.
  revert s. induction fuel as [|fuel IH]; intros s Hs; [done |]. cbn [battle].
  destruct (runM round s) as [s1 [[r|]|e1]] eqn:E; [done | |].
  - apply IH. eapply fights_on_keeps; [by eapply round_keeps_round | done].
  - apply round_raises in E as ->; done.
Qed.

(** X13: a [Novice] on a stream of randoms that is not empty, against a
    monster table that is not empty and whose rows are fair (integers in
    [hp], [piercing] and [armor], a dice expression with a die of at
    least one side in [damage], the ten reward columns), always gets a
    result: the fight comes to an end and raises nothing. *)
Theorem HackAndSlash_run_never_raises (monsters : list (gmap string string))
    (avatar : Avatar.t) (rest : list Z) (v : Z) :
  Avatar.cls avatar = Avatar.Novice →
  monsters ≠ [] →
  Forall fair_row monsters →
  ∃ avatar' r,
    HackAndSlash_run monsters avatar (rest ++ [v]) = Some (Ok (avatar', r)).
Proof.
  intros Hc Hne Hfair. unfold HackAndSlash_run. rewrite pop_snoc.
  destruct (Z.eqb_spec (Z.of_nat (length monsters)) 0) as [Hlen|Hlen];
    [by destruct monsters |].
  destruct (monsters !! _) as [row|] eqn:Hrow.
  - pose proof (Forall_lookup_1 _ _ _ _ Hfair Hrow) as Hr.
    destruct (load_monster_fair row Hr) as (hp & piercing & armor & ->).
    set (s := Battle.mk _ _ _ _).
    assert (Hs : fights_on s) by done.
    destruct (battle_total (S (length rest)) s) as [[[avatar' r]|e] Hrun];
      [simpl; lia | by eauto |].
    by apply battle_never_raises in Hrun.
  - apply lookup_ge_None in Hrow.
    pose proof (Z.mod_pos_bound v (Z.of_nat (length monsters))). lia.
Qed.

Lemma HackAndSlash_run_never_raises_witness :
  let troll : gmap string string :=
    list_to_map
      [ ("hp", "3"); ("piercing", "0"); ("armor", "1"); ("damage", "1d4+1");
        ("reward1", "POTN"); ("reward2", "POTN"); ("reward3", "BNDG");
        ("reward4", ""); ("reward5", ""); ("reward6", ""); ("reward7", "");
        ("reward8", ""); ("reward9", ""); ("reward10", "GOLD") ] in
  let novice := Avatar.mk Avatar.Novice "alice" "alice" "HASH"
                          13 12 9 10 11 8 15 0 1 ∅ in
  ∃ avatar' r,
    HackAndSlash_run [troll] novice ([4; 2; 9; 1] ++ [7]) = Some (Ok (avatar', r)).
Proof.
  intros troll novice.
  apply (HackAndSlash_run_never_raises [troll] novice [4; 2; 9; 1] 7);
    [reflexivity | done |].
  apply Forall_singleton. split_and!.
  - by exists 3, 0, 1.
  - by exists 1%N, 4%N, (Some 1%N).
  - intros code Hcode.
    assert (code = 1 ∨ code = 2 ∨ code = 3 ∨ code = 4 ∨ code = 5 ∨ code = 6
            ∨ code = 7 ∨ code = 8 ∨ code = 9 ∨ code = 10) as Hcases by lia.
    destruct_or!; subst code; vm_compute; eauto.
Defined.

(** X14: what a fight that returns has done.  The avatar is the same
    character (class, name, the six abilities, the level), its xp has not
    gone down, and the result is [win], with a [kill_monster] of a monster
    at 0 hp or less in the log, or [lose], with the avatar at 0 hp or less
    and [killed_by_monster] as the last entry, or [finish], with [run] as
    the last entry. *)
Theorem HackAndSlash_run_result (monsters : list (gmap string string))
    (avatar avatar' : Avatar.t) (randoms : list Z) (r : Result.t) :
  HackAndSlash_run monsters avatar randoms = Some (Ok (avatar', r)) →
  same_character avatar avatar'
  ∧ Avatar.xp avatar ≤ Avatar.xp avatar'
  ∧ ∃ log,
      r = Result.mk "hack_and_slash" (Result.result r) None None (Some log)
      ∧ ((Result.result r = Some "win"
          ∧ ∃ before more monster,
              log = before ++ kill_monster monster :: more
              ∧ Monster.hp monster ≤ 0)
         ∨ (Result.result r = Some "lose"
            ∧ Avatar.hp avatar' ≤ 0
            ∧ ∃ before monster, log = before ++ [killed_by_monster monster])
         ∨ (Result.result r = Some "finish"
            ∧ ∃ before monster, log = before ++ [run monster])).
Proof.
  unfold HackAndSlash_run.
  destruct (pop randoms) as [[v rest]|]; [| done].
  destruct (_ =? 0); [done |].
  destruct (monsters !! _) as [row|]; [| done].
  destruct (load_monster row) as [monster|]; [| done].
  intros (s' & (Hsame & Hxp & _) & -> & Hend)%battle_ends.
  simpl in Hsame, Hxp. split_and!; [done | done |].
  destruct Hend as [(-> & log & more & m & Hlog & Hhp)
                   | [(-> & Hhp & log & m & Hlog) | ->]].
  - eexists. split; [reflexivity |]. left. split; [done |]. eauto.
  - eexists. split; [reflexivity |]. right. left. split_and!; [done | done |]. eauto.
  - eexists. split; [reflexivity |]. right. right. split; [done |]. eauto.
Qed.

Lemma HackAndSlash_run_result_witness :
  let slime : gmap string string :=
    <[ "hp" := "2" ]> (<[ "piercing" := "0" ]> (<[ "armor" := "0" ]>
      (<[ "damage" := "1d4" ]> {[ "reward1" := "POTN" ]}))) in
  let novice := Avatar.mk Avatar.Novice "alice" "alice" "HASH"
                          13 12 9 10 11 8 15 0 1 ∅ in
  let monster := Monster.mk slime 2 0 0 in
  let r := battle_result "win"
             [ attack_monster 4 monster;
               kill_monster (Monster.set_hp (-2) monster);
               get_item "POTN" ] in
  same_character novice (Avatar.get_item novice "POTN")
  ∧ Avatar.xp novice ≤ Avatar.xp (Avatar.get_item novice "POTN")
  ∧ ∃ log,
      r = Result.mk "hack_and_slash" (Result.result r) None None (Some log)
      ∧ ((Result.result r = Some "win"
          ∧ ∃ before more monster,
              log = before ++ kill_monster monster :: more
              ∧ Monster.hp monster ≤ 0)
         ∨ (Result.result r = Some "lose"
            ∧ Avatar.hp (Avatar.get_item novice "POTN") ≤ 0
            ∧ ∃ before monster, log = before ++ [killed_by_monster monster])
         ∨ (Result.result r = Some "finish"
            ∧ ∃ before monster, log = before ++ [run monster])).
Proof.
  intros slime novice monster r.
  apply (HackAndSlash_run_result [slime] novice _ [0; 3; 5; 5; 0] r).
  vm_compute. reflexivity.
Defined.

(** ** Block.sync: how far below the last common block the branch point is *)

Lemma find_branch_point_over blocks node value high :
  high < value → find_branch_point blocks node value high = Ok 0.
Proof.
  intros Hlt. rewrite find_branch_point_equation_1. cbv zeta.
  destruct (Z_gt_dec value high); [done | lia].
Qed.

Lemma quot_2_between value high :
  0 ≤ value ≤ high →
  value ≤ (value + high) `quot` 2 ≤ high
  ∧ (value = (value + high) `quot` 2 → high ≤ value + 1)
  ∧ (value < high → (value + high) `quot` 2 < high).
Proof.
  intros Hvh. rewrite Z.quot_div_nonneg by lia.
  pose proof (Z.div_mod (value + high) 2 ltac:(lia)).
  pose proof (Z.mod_pos_bound (value + high) 2 ltac:(lia)). lia.
Qed.

Lemma find_branch_point_between blocks node k value high :
  same_hash blocks node 0 = Ok false →
  (∀ i, 1 ≤ i ≤ k → same_hash blocks node i = Ok true) →
  (∀ i, k < i ≤ high → same_hash blocks node i = Ok false) →
  0 ≤ value ≤ k → k ≤ high →
  ∃ r, find_branch_point blocks node value high = Ok r
       ∧ value ≤ r ≤ k ∧ k - 1 ≤ r.
Proof.
  intros H0 Hsame.
  remember (Z.to_nat (high - value + 1)) as n eqn:Hn.
  revert value high Hn.
  induction n as [n IH] using lt_wf_ind. intros value high -> Hdiff Hv Hk.
  rewrite find_branch_point_equation_1. cbv zeta.
  destruct (Z_gt_dec value high) as [|_]; [lia |].
  destruct (quot_2_between value high ltac:(lia)) as (Hmid & Heq & Hlt).
  set (mid := (value + high) `quot` 2) in *.
  destruct (decide (mid = 0)) as [Hz|Hnz].
  - rewrite Hz, H0, find_branch_point_over by lia.
    exists 0. split; [done |]. lia.
  - destruct (decide (mid ≤ k)) as [Hle|Hgt].
    + rewrite Hsame by lia. destruct (Z.eq_dec value mid) as [Hvm|Hvm].
      * exists value. split; [done |]. lia.
      * destruct (IH (Z.to_nat (high - mid + 1)) ltac:(lia) mid high eq_refl)
          as (r & -> & Hr); [done | lia | lia |].
        exists r. split; [done |]. lia.
    + rewrite Hdiff by lia.
      destruct (IH (Z.to_nat (mid - 1 - value + 1)) ltac:(lia) value (mid - 1) eq_refl)
        as (r & -> & Hr); [intros i Hi; apply Hdiff; lia | lia | lia |].
      exists r. split; [done |]. lia.
Qed.

Lemma find_branch_point_not_at blocks node n :
  same_hash blocks node n = Ok false → find_branch_point blocks node n n = Ok 0.
Proof.
  intros Hsame. rewrite find_branch_point_equation_1. cbv zeta.
  replace ((n + n) `quot` 2) with n
    by (replace (n + n) with (n * 2) by lia; rewrite Z.quot_mul; lia).
  destruct (Z_gt_dec n n); [lia |]. rewrite Hsame.
  apply find_branch_point_over. lia.
Qed.

(** X15: when the two chains have the same hashes at the ids 1 to [k] and
    different ones from there to the local tip (and the peer has no block
    0), the branch point that [sync] works out is [k] or [k - 1], never
    further down; it is [k] when the tip itself is shared. *)
Theorem branch_point_within_one (blocks : gmap Z Block.t) (node : Node.t)
    (tip : Block.t) (k : Z) :
  last_block blocks = Some tip →
  0 ≤ k ≤ Block.id tip →
  same_hash blocks node 0 = Ok false →
  (∀ i, 1 ≤ i ≤ k → same_hash blocks node i = Ok true) →
  (∀ i, k < i ≤ Block.id tip → same_hash blocks node i = Ok false) →
  ∃ r, branch_point blocks node = Ok r
       ∧ 0 ≤ r ∧ k - 1 ≤ r ≤ k
       ∧ (k = Block.id tip → r = k).
Proof.
  intros Hlast Hk H0 Hsame Hdiff. unfold branch_point. rewrite Hlast.
  destruct (decide (k = Block.id tip)) as [->|Hne].
  - destruct (decide (Block.id tip = 0)) as [Hz|Hnz].
    + rewrite find_branch_point_not_at by (by rewrite Hz).
      cbn [mbind res_bind]. rewrite Hz. simpl. exists 0. split; [done |]. lia.
    + rewrite find_branch_point_at by (apply Hsame; lia).
      cbn [mbind res_bind]. rewrite Z.eqb_refl.
      eexists. split; [done |]. lia.
  - rewrite find_branch_point_not_at by (apply Hdiff; lia).
    cbn [mbind res_bind].
    destruct (Z.eqb_spec 0 (Block.id tip)) as [Hz|_]; [lia |].
    destruct (find_branch_point_between blocks node k 0 (Block.id tip))
      as (r & -> & Hr); [done | done | done | lia | lia |].
    exists r. split; [done |]. lia.
Qed.

Lemma branch_point_within_one_witness :
  ∃ r, branch_point (chain_of ["g"; "A"; "B"; "C"])
                    (node_of ["g"; "A"; "B2"; "C2"; "D2"]) = Ok r
       ∧ 0 ≤ r ∧ 2 - 1 ≤ r ≤ 2
       ∧ (2 = 4 → r = 2).
Proof.
  apply (branch_point_within_one
           (chain_of ["g"; "A"; "B"; "C"])
           (node_of ["g"; "A"; "B2"; "C2"; "D2"])
           (Block.mk 4 (Some "C") None "" "" "" 0 0) 2).
  - vm_compute. reflexivity.
  - simpl. lia.
  - vm_compute. reflexivity.
  - intros i Hi. assert (i = 1 ∨ i = 2) as [-> | ->] by lia;
      vm_compute; reflexivity.
  - simpl. intros i Hi. assert (i = 3 ∨ i = 4) as [-> | ->] by lia;
      vm_compute; reflexivity.
Defined.

(** ** Block.sync: the block table after a sync that goes through *)

Section SyncTable.
Context `{Primitives}.

Lemma add_move_blocks move st :
  Store.blocks (add_move move st) = Store.blocks st.
Proof. unfold add_move. by destruct (Move.id move). Qed.

Lemma sync_moves_blocks st block_id new_moves st' moves :
  sync_moves st block_id new_moves = Ok (st', moves) →
  Store.blocks st' = Store.blocks st.
Proof.
  revert st st' moves.
  induction new_moves as [|m rest IH]; intros st st' moves; simpl.
  - by intros [= <- _].
  - destruct (Move_valid _); [| done].
    destruct (sync_moves _ _ rest) as [[st1 ms]|] eqn:E; simpl; [| done].
    intros [= <- _]. apply IH in E. by rewrite E, add_move_blocks.
Qed.

Lemma sync_blocks_lookup new_blocks st st' k :
  sync_blocks new_blocks st = Ok st' →
  (Forall (λ nb, Block.id nb.1 ≠ k) new_blocks →
     Store.blocks st' !! k = Store.blocks st !! k)
  ∧ (Exists (λ nb, Block.id nb.1 = k) new_blocks →
     ∃ nb, nb ∈ new_blocks ∧ Block.id nb.1 = k
           ∧ Store.blocks st' !! k = Some nb.1).
Proof.
  revert st. induction new_blocks as [|[b ms] rest IH]; intros st; simpl.
  - intros [= <-]. split; [done |]. by intros ?%Exists_nil.
  - destruct (sync_moves _ _ _) as [[st1 moves]|] eqn:E; simpl; [| done].
    destruct (Block_valid b moves); [| done].
    apply sync_moves_blocks in E. intros [Hout Hin]%IH. simpl in Hout, Hin.
    split.
    + intros [Hb Hrest]%Forall_cons. simpl in Hb.
      by rewrite Hout, lookup_insert_ne, E.
    + intros Hex. destruct (decide (Exists (λ nb, Block.id nb.1 = k) rest))
        as [Hrest|Hrest].
      * destruct (Hin Hrest) as (nb & Hnb & Hid & Hk).
        exists nb. split_and!; [by apply elem_of_cons; right | done | done].
      * apply Exists_cons in Hex as [Hb | ?]; [| done]. simpl in Hb.
        exists (b, ms). split_and!; [by apply elem_of_cons; left | done |].
        rewrite Hout by (by apply not_Exists_Forall in Hrest; [| intros ?; apply _]).
        subst k. by rewrite lookup_insert_eq.
Qed.

Lemma delete_after_lookup bp st k :
  Store.blocks (delete_after bp st) !! k
  = if decide (k ≤ bp) then Store.blocks st !! k else None.
Proof.
  unfold delete_after. simpl. destruct (decide (k ≤ bp)) as [Hk|Hk].
  - destruct (Store.blocks st !! k) as [b|] eqn:E.
    + by apply map_lookup_filter_Some.
    + apply map_lookup_filter_None. by left.
  - apply map_lookup_filter_None. right. intros b _. done.
Qed.
End SyncTable.

(** X16: after a sync that goes through and fetched something, when the
    blocks the peer sent have ids above the branch point, the block table
    is the old one up to the branch point and the peer's above it: no
    block at or below the branch point has changed, and no local block
    above it is left. *)
Theorem Block_sync_table `{Primitives} (node : Node.t) (st st' : Store.t) :
  Block_sync (Some node) st = (st', Ok true) →
  st' = st
  ∨ ∃ bp,
      branch_point (Store.blocks st) node = Ok bp
      ∧ (Forall (λ nb, bp < Block.id nb.1) (Node.blocks_from node (bp + 1)) →
         (∀ k, k ≤ bp → Store.blocks st' !! k = Store.blocks st !! k)
         ∧ (∀ k b, bp < k → Store.blocks st' !! k = Some b →
              ∃ moves, (b, moves) ∈ Node.blocks_from node (bp + 1)
                       ∧ Block.id b = k)
         ∧ (∀ nb, nb ∈ Node.blocks_from node (bp + 1) →
              is_Some (Store.blocks st' !! Block.id nb.1))).
Proof.
  unfold Block_sync.
  destruct (Node.last node) as [[theirs ?]|]; [| intros [= <-]; by left].
  destruct (match last_block (Store.blocks st) with
            | Some lb => Block.id theirs <=? Block.id lb
            | None => false
            end); [intros [= <-]; by left |].
  destruct (branch_point _ node) as [bp|] eqn:Ebp; [| done].
  destruct (sync_blocks _ _) as [st2|] eqn:E; [| done].
  intros [= <-]. right. exists bp. split; [done |]. intros Habove.
  rewrite Forall_forall in Habove. split_and!.
  - intros k Hk.
    destruct (sync_blocks_lookup _ _ _ k E) as [Hout _].
    rewrite Hout, delete_after_lookup; [by rewrite decide_True |].
    apply Forall_forall. intros nb Hnb%Habove. lia.
  - intros k b Hk Hb.
    destruct (sync_blocks_lookup _ _ _ k E) as [Hout Hin].
    destruct (decide (Exists (λ nb, Block.id nb.1 = k)
                        (Node.blocks_from node (bp + 1)))) as [Hex|Hex].
    + destruct (Hin Hex) as ([b' ms] & Hnb & Hid & Hlook). simpl in *.
      exists ms. split; congruence.
    + apply not_Exists_Forall in Hex; [| intros ?; apply _].
      rewrite Hout, delete_after_lookup, decide_False in Hb by (done || lia).
      done.
  - intros nb Hnb.
    destruct (sync_blocks_lookup _ _ _ (Block.id nb.1) E) as [_ Hin].
    destruct Hin as (nb' & _ & _ & ->); [| done].
    apply Exists_exists. by exists nb.
Qed.

Lemma Block_sync_table_witness :
  let genesis := Block.mk 1 (Some "10") None "alice" "" "0" 0 0 in
  let b2 := Block.mk 2 (Some "20") (Some "10") "bob" "" "0" 0 0 in
  let st := Store.mk {[ 1 := genesis ]} ∅ in
  let node :=
    Node.mk (Some (b2, []))
            (λ i, ({[ 1 := genesis; 2 := b2 ]} : gmap Z Block.t) !! i)
            (λ i, if i =? 2 then [(b2, [])] else []) in
  let st' := (@Block_sync toy (Some node) st).1 in
  st' = st
  ∨ ∃ bp,
      branch_point (Store.blocks st) node = Ok bp
      ∧ (Forall (λ nb, bp < Block.id nb.1) (Node.blocks_from node (bp + 1)) →
         (∀ k, k ≤ bp → Store.blocks st' !! k = Store.blocks st !! k)
         ∧ (∀ k b, bp < k → Store.blocks st' !! k = Some b →
              ∃ moves, (b, moves) ∈ Node.blocks_from node (bp + 1)
                       ∧ Block.id b = k)
         ∧ (∀ nb, nb ∈ Node.blocks_from node (bp + 1) →
              is_Some (Store.blocks st' !! Block.id nb.1))).
Proof.
  intros genesis b2 st node st'.
  apply (@Block_sync_table toy node st st'). vm_compute. reflexivity.
Defined.
